(** * EksiSozlukScraper: state reconciliation and persistence

    A shallow embedding of the reconciliation core of the scraper
    ([new/scraper.py]) and of the content-aware diff of the scheduled
    variant ([python-scraper/data_manager.py]), with the properties their
    specification states about them.

    Conventions of the embedding.
    - A Python [str] is a [string]; each character stands for one code
      point (the model covers code points below 256).
    - A Python [dict] with [str] keys is a [gmap string _]; a [set] of
      [str] is a [gset string].  Python iterates a [set] in an order that
      depends on hashing; the model iterates it in the order of
      [elements], and every statement about a list built from a set is
      stated up to that order.
    - An entry is a [dict] whose field values are JSON scalars
      ([value]); floating point numbers are left out.
    - A raised exception is the [None] of an [option]; output on standard
      error is a list of [stderr_line]s returned next to the result.
    - The files are a finite map from path to content.  Operations on it
      succeed whenever the path they read exists: permission and device
      failures are not modelled. *)

From Stdlib Require Import ZArith String Ascii.
From stdpp Require Import base option list gmap sets strings pretty.

#[local] Set Warnings "-clear-no-such-hyp".

Local Open Scope string_scope.
Local Open Scope list_scope.
Local Open Scope stdpp_scope.

(** ** Python values and strings *)

Module Py.

(** JSON scalars as Python sees them after [json.load]. *)
Inductive value :=
  | VNull
  | VBool (b : bool)
  | VInt (z : Z)
  | VStr (s : string).

#[global] Instance value_eq_dec : EqDecision value.
Proof. solve_decision. Defined.

(** [isinstance(v, str)] *)
Definition isinstance_str (v : value) : bool :=
  match v with VStr _ => true | _ => false end.

(** Truth value of [v] (what [not v] negates). *)
Definition truthy (v : value) : bool :=
  match v with
  | VNull => false
  | VBool b => b
  | VInt z => negb (z =? 0)%Z
  | VStr s => negb (bool_decide (s = EmptyString))
  end.

(** Python's [bool] is a subtype of [int]: [True == 1]. *)
Definition as_int (v : value) : option Z :=
  match v with
  | VBool b => Some (Z.b2z b)
  | VInt z => Some z
  | _ => None
  end.

(** [a == b] on scalars. *)
Definition eqb (a b : value) : bool :=
  match a, b with
  | VNull, VNull => true
  | VStr s, VStr t => bool_decide (s = t)
  | (VBool _ | VInt _), (VBool _ | VInt _) => bool_decide (as_int a = as_int b)
  | _, _ => false
  end.

(** [str(v)], as an f-string formats it. *)
Definition str (v : value) : string :=
  match v with
  | VNull => "None"
  | VBool true => "True"
  | VBool false => "False"
  | VInt z => pretty z
  | VStr s => s
  end.

(** [s.startswith(p)] *)
Definition startswith (s p : string) : bool := String.prefix p s.

(** [s[n:]] *)
Fixpoint slice_from (n : nat) (s : string) : string :=
  match n, s with
  | O, _ => s
  | S n', String _ s' => slice_from n' s'
  | S _, EmptyString => EmptyString
  end.

(** [c.isspace()] for a code point below 256. *)
Definition isspace (c : ascii) : bool :=
  let n := nat_of_ascii c in
  (((9 <=? n) && (n <=? 13)) || ((28 <=? n) && (n <=? 32))
   || (n =? 133) || (n =? 160))%nat.

Fixpoint lstrip (s : string) : string :=
  match s with
  | String c s' => if isspace c then lstrip s' else s
  | EmptyString => EmptyString
  end.

(** [s.strip()] *)
Definition strip (s : string) : string :=
  String.rev (lstrip (String.rev (lstrip s))).

(** [sub in s] for two strings. *)
Fixpoint contains (sub s : string) : bool :=
  String.prefix sub s ||
  match s with
  | String _ s' => contains sub s'
  | EmptyString => false
  end.

End Py.

Import Py.

(** ** [new/scraper.py] *)

Module Scraper.

(** *** Configuration *)

Definition MAX_RETRIES : Z := 3.
Definition RETRY_BACKOFF_BASE : Z := 2.
Definition STATE_BACKUP_COUNT : nat := 5.

(** A scraped entry: a dictionary from field name to value. *)
Abbreviation entry := (gmap string value).

(** What the program prints on standard error, one constructor per
    message; the text of a caught exception is left out. *)
Inductive stderr_line :=
  | WarnInvalidFormat
  | ErrLoadingState
  | AttemptBackup (i : nat)
  | LoadedBackup (i : nat)
  | BackupCorrupted (i : nat)
  | AllBackupsFailed
  | WarnValidationErrors (n : nat)
  | ErrorItem (msg : string)
  | ErrNoValidEntries.

(** *** Data validation *)

Definition required_fields : list string :=
  ["id"; "author"; "timestamp"; "content"; "scraped_at"].

(** [entry['id']] when it is a [str]. *)
Definition str_id (e : entry) : option string :=
  match e !! "id" with
  | Some (VStr s) => Some s
  | _ => None
  end.

Definition validate_entry (e : entry) : bool :=
  if negb (forallb (λ field, bool_decide (is_Some (e !! field))) required_fields)
  then false
  else
    match e !! "id", e !! "content" with
    | Some i, Some c =>
        if negb (isinstance_str i) || negb (truthy i) then false
        else if negb (isinstance_str c) then false
        else true
    | _, _ => false (* not reached: both are required fields *)
    end.

(** The loop state of [validate_entries]. *)
Record vstate := VState {
  valid_entries : list entry;
  errors : list string;
  seen_ids : gset string
}.

Definition validate_step (st : vstate) (e : entry) : vstate :=
  if negb (validate_entry e) then
    VState (valid_entries st)
           (errors st ++
              ["Invalid entry structure: " +:+
                 str (default (VStr "unknown") (e !! "id"))])
           (seen_ids st)
  else
    match str_id e with
    | Some i =>
        if bool_decide (i ∈ seen_ids st) then
          VState (valid_entries st)
                 (errors st ++ ["Duplicate entry ID: " +:+ i])
                 (seen_ids st)
        else
          VState (valid_entries st ++ [e]) (errors st) ({[i]} ∪ seen_ids st)
    | None => st (* not reached: a valid entry has a str id *)
    end.

Definition validate_entries (entries : list entry) : list entry * list string :=
  let st := foldl validate_step (VState [] [] ∅) entries in
  (valid_entries st, errors st).

(** *** The state file and its backups *)

(** One element of the list a state file holds.  An element that is not
    a dictionary is a flat list of scalars or a scalar. *)
Inductive item :=
  | IDict (d : entry)
  | IList (l : list value)
  | IScalar (v : value).

(** What [json.load] returns for a file it accepts. *)
Inductive document :=
  | DList (items : list item)
  | DDict (d : entry)
  | DScalar (v : value).

(** The content of a file: text that [json.load] rejects (it raises), or
    the document it returns.  [json.dump] followed by [json.load] gives
    back the value dumped, so a written file is the document written. *)
Inductive file :=
  | Garbage (raw : string)
  | Json (doc : document).

Abbreviation fs := (gmap string file).
Abbreviation state := (gmap string entry).

(** [Path(p).exists()] *)
Definition path_exists (disk : fs) (p : string) : bool :=
  bool_decide (is_Some (disk !! p)).

(** [validate_entry] on an arbitrary element: [field in entry] is a
    key test on a dictionary, a substring test on a string, a membership
    test on a list and a [TypeError] on the other scalars; subscripting a
    string or a list with ['id'] is a [TypeError]. *)
Definition validate_item (it : item) : option bool :=
  match it with
  | IDict d => Some (validate_entry d)
  | IScalar (VStr s) =>
      if forallb (λ field, contains field s) required_fields then None
      else Some false
  | IScalar _ => None
  | IList l =>
      if forallb (λ field, existsb (λ v, eqb v (VStr field)) l) required_fields
      then None
      else Some false
  end.

(** One round of [{entry['id']: entry for entry in entries
    if validate_entry(entry)}]. *)
Definition by_id_step (acc : option state) (it : item) : option state :=
  m ← acc;
  ok ← validate_item it;
  if ok : bool then
    match it with
    | IDict d => i ← str_id d; Some (<[i := d]> m)
    | _ => None
    end
  else Some m.

Definition valid_by_id (items : list item) : option state :=
  foldl by_id_step (Some ∅) items.

Definition backup_path (state_file : string) (i : nat) : string :=
  state_file +:+ ".backup." +:+ pretty i.

Definition temp_path (state_file : string) (pid : nat) : string :=
  state_file +:+ ".tmp." +:+ pretty pid.

(** The loop of [load_state_from_backup] over the remaining indices. *)
Fixpoint backup_loop (disk : fs) (state_file : string) (indices : list nat)
  : state * list stderr_line :=
  match indices with
  | [] => (∅, [AllBackupsFailed])
  | i :: rest =>
      match disk !! backup_path state_file i with
      | None => backup_loop disk state_file rest
      | Some (Garbage _) =>
          let '(st, log) := backup_loop disk state_file rest in
          (st, AttemptBackup i :: BackupCorrupted i :: log)
      | Some (Json (DList items)) =>
          match valid_by_id items with
          | Some st => (st, [AttemptBackup i; LoadedBackup i])
          | None =>
              let '(st, log) := backup_loop disk state_file rest in
              (st, AttemptBackup i :: LoadedBackup i :: BackupCorrupted i :: log)
          end
      | Some (Json _) =>
          let '(st, log) := backup_loop disk state_file rest in
          (st, AttemptBackup i :: log)
      end
  end.

Definition load_state_from_backup (disk : fs) (state_file : string)
  : state * list stderr_line :=
  backup_loop disk state_file (seq 1 STATE_BACKUP_COUNT).

Definition load_state (disk : fs) (state_file : string)
  : state * list stderr_line :=
  if negb (path_exists disk state_file) then (∅, [])
  else
    match disk !! state_file with
    | Some (Json (DList items)) =>
        match valid_by_id items with
        | Some st => (st, [])
        | None =>
            let '(st, log) := load_state_from_backup disk state_file in
            (st, ErrLoadingState :: log)
        end
    | Some (Json _) => (∅, [WarnInvalidFormat])
    | Some (Garbage _) =>
        let '(st, log) := load_state_from_backup disk state_file in
        (st, ErrLoadingState :: log)
    | None => (∅, []) (* not reached: the file exists *)
    end.

(** [Path(src).rename(dst)] and [os.rename(src, dst)]. *)
Definition rename (src dst : string) (disk : fs) : fs :=
  match disk !! src with
  | Some c => <[dst := c]> (delete src disk)
  | None => disk
  end.

(** [shutil.copy2(src, dst)] *)
Definition copy2 (src dst : string) (disk : fs) : fs :=
  match disk !! src with
  | Some c => <[dst := c]> disk
  | None => disk
  end.

Definition rotate_step (state_file : string) (disk : fs) (i : nat) : fs :=
  let old_backup := backup_path state_file i in
  let new_backup := backup_path state_file (i + 1) in
  if path_exists disk old_backup then rename old_backup new_backup disk
  else disk.

Definition rotate_backups (state_file : string) (disk : fs) : fs :=
  if negb (path_exists disk state_file) then disk
  else
    let disk := foldl (rotate_step state_file) disk
                  (reverse (seq 1 (STATE_BACKUP_COUNT - 1))) in
    copy2 state_file (backup_path state_file 1) disk.

(** [save_state_atomic]; [pid] is [os.getpid()].  The handler of the
    enclosing [try] is not reached in this model, where writing and
    renaming succeed. *)
Definition save_state_atomic (entries : list entry) (state_file : string)
    (pid : nat) (disk : fs) : fs * bool * list stderr_line :=
  let '(valid, errs) := validate_entries entries in
  let log :=
    match errs with
    | [] => []
    | _ => WarnValidationErrors (length errs) :: (ErrorItem <$> take 5 errs)
    end in
  match valid with
  | [] => (disk, false, log ++ [ErrNoValidEntries])
  | _ =>
      let disk := rotate_backups state_file disk in
      let temp_file := temp_path state_file pid in
      let disk := <[temp_file := Json (DList (IDict <$> valid))]> disk in
      let disk := rename temp_file state_file disk in
      (disk, true, log)
  end.

(** *** Diff computation *)

(** An element of [diff['edited']]: [previous] and [current] hold the
    pair (content, timestamp). *)
Record edited_entry := EditedEntry {
  ed_id : string;
  ed_author : value;
  ed_previous : value * value;
  ed_current : value * value;
  ed_scraped_at : value
}.

Record summary := Summary {
  new_count : nat;
  edited_count : nat;
  deleted_count : nat;
  total_current : nat;
  total_previous : nat
}.

Record diff_result := DiffResult {
  diff_new : list entry;
  diff_edited : list edited_entry;
  diff_deleted : list entry;
  diff_summary : summary
}.

(** One round of [{entry['id']: entry for entry in current_entries}]; a
    later entry replaces an earlier one with the same id.  The keys of
    the state are [str] ([Dict[str, Dict]]), so an entry whose id is
    missing ([KeyError]) or not a [str] has no place in the result. *)
Definition index_step (acc : option state) (e : entry) : option state :=
  m ← acc; i ← str_id e; Some (<[i := e]> m).

Definition index_by_id (entries : list entry) : option state :=
  foldl index_step (Some ∅) entries.

(** The body of the loop over [common_ids]. *)
Definition edited_step (current_by_id previous_state : state)
    (acc : option (list edited_entry)) (eid : string)
  : option (list edited_entry) :=
  edited_entries ← acc;
  curr ← current_by_id !! eid;
  prev ← previous_state !! eid;
  curr_content ← curr !! "content";
  prev_content ← prev !! "content";
  changed ←
    (if negb (eqb curr_content prev_content) then Some true
     else
       curr_timestamp ← curr !! "timestamp";
       prev_timestamp ← prev !! "timestamp";
       Some (negb (eqb curr_timestamp prev_timestamp)));
  if changed : bool then
    author ← curr !! "author";
    prev_timestamp ← prev !! "timestamp";
    curr_timestamp ← curr !! "timestamp";
    scraped_at ← curr !! "scraped_at";
    Some (edited_entries ++
            [EditedEntry eid author (prev_content, prev_timestamp)
               (curr_content, curr_timestamp) scraped_at])
  else Some edited_entries.

Definition compute_diff (current_entries : list entry) (previous_state : state)
  : option diff_result :=
  current_by_id ← index_by_id current_entries;
  let current_ids : gset string := dom current_by_id in
  let previous_ids : gset string := dom previous_state in
  let new_ids := current_ids ∖ previous_ids in
  new_entries ← mapM (λ eid, current_by_id !! eid) (elements new_ids);
  let deleted_ids := previous_ids ∖ current_ids in
  deleted_entries ← mapM (λ eid, previous_state !! eid) (elements deleted_ids);
  let common_ids := current_ids ∩ previous_ids in
  edited_entries ←
    foldl (edited_step current_by_id previous_state) (Some [])
      (elements common_ids);
  Some (DiffResult new_entries edited_entries deleted_entries
          (Summary (length new_entries) (length edited_entries)
             (length deleted_entries) (length current_entries)
             (size previous_state))).

(** *** Page targets *)

Definition build_page_urls (base_url : string) (page_count : Z) : list string :=
  if (page_count =? 1)%Z then [base_url]
  else (λ page : Z, base_url +:+ "?p=" +:+ pretty page) <$> seqZ 1 page_count.

(** *** Fetching with retries *)

(** The outcome of one [requests.get] followed by [raise_for_status]:
    the text of the page, or a [RequestException] (time-out, connection
    error, error status). *)
Inductive response :=
  | Text (body : string)
  | RequestException.

(** What one call does to the outside, in order. *)
Inductive event :=
  | Get (url : string)
  | Sleep (seconds : Z)
  | RetryNotice (attempt : Z) (wait_time : Z)
  | FailedNotice.

(** The loop of [fetch_html_with_retry] over the remaining attempts;
    [net attempt] is how the network answers the request of that
    attempt. *)
Fixpoint fetch_loop (net : Z → response) (url : string) (max_retries : Z)
    (attempts : list Z) : option string * list event :=
  match attempts with
  | [] => (None, [])
  | attempt :: rest =>
      match net attempt with
      | Text body => (Some body, [Get url])
      | RequestException =>
          let wait_time := (RETRY_BACKOFF_BASE ^ attempt)%Z in
          if (attempt <? max_retries - 1)%Z then
            let '(r, tr) := fetch_loop net url max_retries rest in
            (r, Get url :: RetryNotice (attempt + 1) wait_time
                  :: Sleep wait_time :: tr)
          else (None, [Get url; FailedNotice])
      end
  end.

Definition fetch_html_with_retry (net : Z → response) (url : string)
    (max_retries : Z) : option string * list event :=
  fetch_loop net url max_retries (seqZ 0 max_retries).

(** *** The pipeline and its exit status *)

Record config := Config {
  url : string;
  output_file : option string;
  state_file : option string;
  diff_only : bool;
  lock_file : option string
}.

(** What a run meets outside the state store: the parsed command line
    ([None] when [parse_args] gives up), whether [flock] grants the
    lock, what [scrape_all_pages] returns (the entries and the
    [partial_scrape] flag of its metadata), and whether writing the
    output succeeds. *)
Record environment := Environment {
  env_config : option config;
  env_lock_granted : bool;
  env_scraped : list entry;
  env_partial_scrape : bool;
  env_write_ok : bool;
  env_pid : nat
}.

(** [if path:] on an optional path: [None] and the empty string are
    false. *)
Definition given (path : option string) : option string :=
  match path with
  | Some p => if bool_decide (p = EmptyString) then None else Some p
  | None => None
  end.

(** [main]: the status the process exits with, and the state file and
    backups it leaves; the lock file and the output file are not part of
    [disk].  An uncaught exception ends a Python process with status 1. *)
Definition main (env : environment) (disk : fs) : Z * fs :=
  match env_config env with
  | None => (1, disk)%Z
  | Some cfg =>
      if bool_decide (is_Some (given (lock_file cfg)))
         && negb (env_lock_granted env)
      then (2, disk)%Z
      else
        let current_entries := env_scraped env in
        match current_entries with
        | [] => (1, disk)%Z
        | _ =>
            let '(valid, _) := validate_entries current_entries in
            match valid with
            | [] => (1, disk)%Z
            | _ =>
                let '(saved, disk) :=
                  match given (state_file cfg) with
                  | Some sf =>
                      let '(previous_state, _) := load_state disk sf in
                      if bool_decide (previous_state = ∅) then
                        let '(disk', ok, _) :=
                          save_state_atomic valid sf (env_pid env) disk in
                        (ok, disk')
                      else
                        match compute_diff valid previous_state with
                        | None => (false, disk)
                        | Some _ =>
                            let '(disk', ok, _) :=
                              save_state_atomic valid sf (env_pid env) disk in
                            (ok, disk')
                        end
                  | None => (true, disk)
                  end in
                if negb saved then (1, disk)%Z
                else if negb (env_write_ok env) then (1, disk)%Z
                else if env_partial_scrape env then (2, disk)%Z
                else (0, disk)%Z
            end
        end
  end.

End Scraper.

(** ** [python-scraper/data_manager.py] *)

Module DataManager.

(** [entry.py] *)
Record Entry := MkEntry {
  id : string;
  author : string;
  timestamp : string;
  content : string;
  scraped_at : string
}.

(** An element of the list [diff] returns; [type] is a keyword of
    Rocq, the field is [type_]. *)
Record diff_entry := DiffEntry {
  d_id : string;
  type_ : string;
  d_content : string;
  d_timestamp : string
}.

(** [{entry.id: entry for entry in old_data}] *)
Definition old_map_of (old_data : list Entry) : gmap string Entry :=
  foldl (λ m entry, <[id entry := entry]> m) ∅ old_data.

(** The body of the loop of [diff]. *)
Definition diff_step (old_map : gmap string Entry) (diffs : list diff_entry)
    (entry : Entry) : list diff_entry :=
  match old_map !! id entry with
  | None =>
      diffs ++ [DiffEntry (id entry) "new" (content entry) (timestamp entry)]
  | Some old_entry =>
      if negb (bool_decide (content entry = content old_entry)) then
        if startswith (content entry) (content old_entry) then
          let appended :=
            slice_from (String.length (content old_entry)) (content entry) in
          if negb (bool_decide (strip appended = EmptyString)) then
            diffs ++ [DiffEntry (id entry) "appended" appended (timestamp entry)]
          else diffs
        else
          diffs ++ [DiffEntry (id entry) "edited" (content entry) (timestamp entry)]
      else diffs
  end.

Definition diff (old_data new_data : list Entry) : list diff_entry :=
  foldl (diff_step (old_map_of old_data)) [] new_data.

End DataManager.

Import Scraper.

(** ** Notions used in the statements *)

(** The structural conditions of [validate_entry], spelled out. *)
Definition well_formed (e : entry) : Prop :=
  (∀ field, field ∈ required_fields → is_Some (e !! field)) ∧
  (∃ s, e !! "id" = Some (VStr s) ∧ s ≠ EmptyString) ∧
  (∃ c, e !! "content" = Some (VStr c)).

(** The state of the loop of [validate_entries] once the entries
    [before] have been processed. *)
Definition vloop (before : list entry) : vstate :=
  foldl validate_step (VState [] [] ∅) before.

(** The entry [e], met after the entries [before], is appended to the
    valid entries. *)
Definition accepts (before : list entry) (e : entry) : Prop :=
  (validate_entries (before ++ [e])).1 = (validate_entries before).1 ++ [e].

(** The entry [e], met after the entries [before], is left out and one
    error is reported for it. *)
Definition rejects (before : list entry) (e : entry) : Prop :=
  ∃ msg, validate_entries (before ++ [e]) =
           ((validate_entries before).1, (validate_entries before).2 ++ [msg]).

(** A complete entry whose five fields are strings. *)
Definition mk_entry (i a t c s : string) : entry :=
  <["id" := VStr i]> (<["author" := VStr a]> (<["timestamp" := VStr t]>
    (<["content" := VStr c]> (<["scraped_at" := VStr s]> ∅)))).

(** The record of the batch that carries the id [i]: the last one, when
    several do. *)
Definition current_record (current : list entry) (i : string) : option entry :=
  last (filter (λ e, str_id e = Some i) current).

(** [curr] differs from [prev] in its content or in its timestamp. *)
Definition changed (curr prev : entry) : bool :=
  match curr !! "content", prev !! "content",
        curr !! "timestamp", prev !! "timestamp" with
  | Some cc, Some pc, Some ct, Some pt => negb (eqb cc pc) || negb (eqb ct pt)
  | _, _, _, _ => false
  end.

(** The edited record [ed] reports the change from [prev] to [curr]. *)
Definition reports (ed : edited_entry) (curr prev : entry) : Prop :=
  curr !! "author" = Some (ed_author ed) ∧
  prev !! "content" = Some (ed_previous ed).1 ∧
  prev !! "timestamp" = Some (ed_previous ed).2 ∧
  curr !! "content" = Some (ed_current ed).1 ∧
  curr !! "timestamp" = Some (ed_current ed).2 ∧
  curr !! "scraped_at" = Some (ed_scraped_at ed).

(** [changed] at the id [i] of two maps. *)
Definition changed_at (m prev : state) (i : string) : bool :=
  match m !! i, prev !! i with
  | Some c, Some p => changed c p
  | _, _ => false
  end.

(** The ids of a batch. *)
Definition batch_ids (current : list entry) : gset string :=
  list_to_set (omap str_id current).

(** The scenario of the diff demonstration: three records before,
    four now. *)
Definition scenario_previous : state :=
  <["1" := mk_entry "1" "user1" "15:30" "deprem" "15:35"]>
  (<["2" := mk_entry "2" "user2" "15:31" "sarsinti" "15:35"]>
  (<["3" := mk_entry "3" "user3" "15:32" "kandilli" "15:35"]> ∅)).

Definition scenario_current : list entry :=
  [ mk_entry "1" "user1" "15:30" "deprem" "15:40";
    mk_entry "2" "user2" "15:31" "sarsinti. edit: 5.8" "15:40";
    mk_entry "4" "user4" "15:38" "merkez" "15:40";
    mk_entry "5" "user5" "15:39" "artci" "15:40" ].

(** Backup [i] of [state_file] exists, parses to a list and its
    validation does not raise; [st] holds its valid records. *)
Definition backup_usable (disk : fs) (state_file : string) (i : nat)
    (st : state) : Prop :=
  ∃ items, disk !! backup_path state_file i = Some (Json (DList items)) ∧
           valid_by_id items = Some st.

(** Reading the primary state file raises: [json.load] rejects it, or
    validating one of its elements raises. *)
Definition primary_raises (disk : fs) (state_file : string) : Prop :=
  (∃ raw, disk !! state_file = Some (Garbage raw)) ∨
  (∃ items, disk !! state_file = Some (Json (DList items)) ∧
            valid_by_id items = None).

(** The valid records of backup [i], when it is usable. *)
Definition try_backup (disk : fs) (state_file : string) (i : nat)
  : option state :=
  match disk !! backup_path state_file i with
  | Some (Json (DList items)) => valid_by_id items
  | _ => None
  end.

(** A record and the state that holds just it. *)
Definition record_1 : entry := mk_entry "1" "user1" "15:30" "deprem" "15:35".
Definition state_1 : state := {["1" := record_1]}.

(** Three disks whose backup is good: the primary file and the first
    backup are corrupt and the second backup is good; the primary file
    holds a JSON object instead of a list; the primary file holds a list
    with one incomplete record. *)
Definition disk_corrupt : fs :=
  <["state.json" := Garbage "{{{"]>
  (<["state.json.backup.1" := Garbage "not json"]>
  (<["state.json.backup.2" := Json (DList [IDict record_1])]> ∅)).

Definition disk_object : fs :=
  <["state.json" := Json (DDict ∅)]>
  (<["state.json.backup.1" := Json (DList [IDict record_1])]> ∅).

Definition disk_incomplete : fs :=
  <["state.json" := Json (DList [IDict {["id" := VStr "2"]}])]>
  (<["state.json.backup.1" := Json (DList [IDict record_1])]> ∅).

(** A record that carries the id of [record_1] and nothing else, and a
    second complete record with that id. *)
Definition stub_1 : entry := {["id" := VStr "1"]}.
Definition record_1_later : entry :=
  mk_entry "1" "user1" "15:30" "deprem, artci" "15:40".

(** The record of [old_data] that carries the id [i]: the last one, when
    several do. *)
Definition previous_record (old_data : list DataManager.Entry) (i : string)
  : option DataManager.Entry :=
  last (filter (λ e, DataManager.id e = i) old_data).

(** What one record of [new_data] adds to the result of [diff]. *)
Definition contribution (old_data : list DataManager.Entry)
    (entry : DataManager.Entry) : list DataManager.diff_entry :=
  DataManager.diff_step (DataManager.old_map_of old_data) [] entry.

(** The two examples of the append classification. *)
Definition storm_old : DataManager.Entry :=
  DataManager.MkEntry "1" "user1" "12:00" "a storm hit" "12:05".
Definition storm_appended : DataManager.Entry :=
  DataManager.MkEntry "1" "user1" "12:10"
    "a storm hit. update: 5.8 magnitude" "12:15".
Definition storm_rewritten : DataManager.Entry :=
  DataManager.MkEntry "1" "user1" "12:10" "totally different text" "12:15".
Definition storm_retimed : DataManager.Entry :=
  DataManager.MkEntry "1" "user1" "12:10" "a storm hit" "12:15".
Definition storm_padded : DataManager.Entry :=
  DataManager.MkEntry "1" "user1" "12:10" "a storm hit  " "12:15".

(** The addresses requested, in order. *)
Definition requests (trace : list event) : list string :=
  omap (λ ev, match ev with Get u => Some u | _ => None end) trace.

(** The pauses taken, in order. *)
Definition delays (trace : list event) : list Z :=
  omap (λ ev, match ev with Sleep s => Some s | _ => None end) trace.

(** Four runs with [--state state.json]: the lock is held by another
    process; every page is fetched; one page fails; nothing is
    scraped. *)
Definition tracking_config : config :=
  Config "https://eksisozluk.com/t--1" None (Some "state.json") false
    (Some "state.json.lock").

Definition run_already_running : environment :=
  Environment (Some tracking_config) false scenario_current false true 42.

Definition run_success : environment :=
  Environment (Some tracking_config) true scenario_current false true 42.

Definition run_partial : environment :=
  Environment (Some tracking_config) true scenario_current true true 42.

Definition run_no_data : environment :=
  Environment (Some tracking_config) true [] false true 42.

(** The backups [n], ..., 1 of [state_file] moved up by one, in that
    order: the loop of [rotate_backups]. *)
Definition shifted (state_file : string) (n : nat) (disk : fs) : fs :=
  foldl (rotate_step state_file) disk (reverse (seq 1 n)).

(** A state file with the backups 1, 2, 4 and 5: backup 3 is missing. *)
Definition disk_gap : fs :=
  <["state.json" := Garbage "primary"]>
  (<["state.json.backup.1" := Garbage "first"]>
  (<["state.json.backup.2" := Garbage "second"]>
  (<["state.json.backup.4" := Garbage "fourth"]>
  (<["state.json.backup.5" := Garbage "fifth"]> ∅)))).

(** A state whose records are valid and stored under their own id. *)
Definition well_keyed (st : state) : Prop :=
  map_Forall (λ i e, validate_entry e = true ∧ str_id e = Some i) st.

(** The loop of [parse_args] over the arguments from [args[i]] on: an
    option that takes a value needs one more argument after it. *)
Fixpoint parse_options (cfg : config) (rest : list string) : config :=
  match rest with
  | [] => cfg
  | arg :: rest' =>
      match rest' with
      | value :: rest'' =>
          if bool_decide (arg = "--output") then
            parse_options
              (Config (url cfg) (Some value) (state_file cfg) (diff_only cfg)
                 (lock_file cfg)) rest''
          else if bool_decide (arg = "--state") then
            parse_options
              (Config (url cfg) (output_file cfg) (Some value) (diff_only cfg)
                 (Some (value +:+ ".lock"))) rest''
          else if bool_decide (arg = "--diff-only") then
            parse_options
              (Config (url cfg) (output_file cfg) (state_file cfg) true
                 (lock_file cfg)) rest'
          else parse_options cfg rest'
      | [] =>
          if bool_decide (arg = "--diff-only") then
            Config (url cfg) (output_file cfg) (state_file cfg) true
              (lock_file cfg)
          else cfg
      end
  end.

(** [parse_args]; [args] is [sys.argv]. *)
Definition parse_args (args : list string) : option config :=
  match args with
  | _ :: url :: rest => Some (parse_options (Config url None None false None) rest)
  | _ => None
  end.

(** The option [name] occurs in [rest], followed by [value]. *)
Definition option_given (name value : string) (rest : list string) : Prop :=
  ∃ before after, rest = before ++ name :: value :: after.

(** The metadata of [scrape_all_pages], without its two readings of the
    clock. *)
Record metadata := Metadata {
  total_pages : Z;
  successful_pages : nat;
  failed_pages : nat;
  partial_scrape : bool
}.

Section Scrape.

(** What the parser makes of a page: [get_page_count (parse_html html)]
    and [extract_entries_from_page (parse_html html)]. *)
Variable page_count_of : string → Z.
Variable entries_of : string → list entry.

(** How the network answers the [n]-th request of the run, made to the
    address [url]. *)
Variable net : nat → string → response.

(** [fetch_html_with_retry(url, headers)] when [n] requests were made
    before; returns the number of requests made so far. *)
Definition fetch_from (n : nat) (url : string) : option string * nat :=
  let '(html, trace) :=
    fetch_html_with_retry (λ attempt, net (n + Z.to_nat attempt) url) url
      MAX_RETRIES in
  (html, n + length (requests trace)).

(** [html] when [if not html] fails. *)
Definition nonempty (html : option string) : option string :=
  match html with
  | Some h => if bool_decide (h = EmptyString) then None else Some h
  | None => None
  end.

Definition scrape_page (n : nat) (url : string) : list entry * bool * nat :=
  let '(html, n') := fetch_from n url in
  match nonempty html with
  | None => ([], false, n')
  | Some h => (entries_of h, true, n')
  end.

(** The body of the loop of [scrape_all_pages]; the state holds the
    entries so far, the two counters and the number of requests made. *)
Definition page_step (st : list entry * nat * nat * nat) (url : string)
  : list entry * nat * nat * nat :=
  let '(all_entries, successful, failed, n) := st in
  let '(entries, success, n') := scrape_page n url in
  if success then (all_entries ++ entries, S successful, failed, n')
  else (all_entries, successful, S failed, n').

Definition scrape_all_pages (base_url : string) : list entry * metadata :=
  let '(html, n) := fetch_from 0 base_url in
  match nonempty html with
  | None => ([], Metadata 0 0 0 false)
  | Some h =>
      let page_count := page_count_of h in
      let urls := build_page_urls base_url page_count in
      let '(all_entries, successful, failed, _) :=
        foldl page_step ([], 0, 0, n) urls in
      (all_entries,
       Metadata page_count successful failed (bool_decide (0 < failed)%nat))
  end.

End Scrape.


(** The entry [diff] reports for a record it has not seen before. *)
Definition new_entry (entry : DataManager.Entry) : DataManager.diff_entry :=
  DataManager.DiffEntry (DataManager.id entry) "new"
    (DataManager.content entry) (DataManager.timestamp entry).

(** A record with another id than the storm records. *)
Definition storm_other : DataManager.Entry :=
  DataManager.MkEntry "2" "user2" "12:20" "aftershocks" "12:25".

(** ** Validation *)

Lemma validate_entry_spec e : validate_entry e = true ↔ well_formed e.
Proof.
  unfold validate_entry, well_formed. split.
  - destruct (forallb _ _) eqn:Hall; simpl; [|done].
    rewrite forallb_forall in Hall.
    destruct (e !! "id") as [i|] eqn:Hi; [|done].
    destruct (e !! "content") as [c|] eqn:Hc; [|done].
    destruct i as [| | |s]; simpl; try done.
    case_bool_decide; simpl; [done|].
    destruct c as [| | |c]; simpl; try done.
    intros _. split; [|eauto].
    intros f Hf. apply list_elem_of_In, Hall in Hf.
    by apply bool_decide_eq_true in Hf.
  - intros (Hall & (s & Hs & Hne) & (c & Hc)).
    assert (forallb (λ field, bool_decide (is_Some (e !! field))) required_fields = true) as ->.
    { apply forallb_forall. intros f Hf. apply bool_decide_eq_true, Hall, list_elem_of_In, Hf. }
    rewrite Hs, Hc. simpl. by rewrite bool_decide_eq_false_2.
Qed.

Lemma vloop_snoc before e : vloop (before ++ [e]) = validate_step (vloop before) e.
Proof. unfold vloop. by rewrite foldl_snoc. Qed.

Lemma validate_entry_str_id e :
  validate_entry e = true → ∃ i, str_id e = Some i ∧ i ≠ EmptyString.
Proof.
  intros (_ & (s & Hs & Hne) & _)%validate_entry_spec.
  exists s. unfold str_id. by rewrite Hs.
Qed.

Lemma vloop_inv before :
  (∀ i, i ∈ seen_ids (vloop before) ↔
        ∃ e', e' ∈ before ∧ validate_entry e' = true ∧ str_id e' = Some i) ∧
  Forall (λ e, validate_entry e = true) (valid_entries (vloop before)) ∧
  seen_ids (vloop before) = list_to_set (omap str_id (valid_entries (vloop before))) ∧
  NoDup (omap str_id (valid_entries (vloop before))) ∧
  length (valid_entries (vloop before)) + length (errors (vloop before)) = length before ∧
  valid_entries (vloop before) ⊆ before.
Proof.
  induction before as [|e before IH] using rev_ind.
  { split_and!; try done; [|constructor].
    intros i. split; [set_solver|].
    intros (e' & He' & _). by apply elem_of_nil in He'. }
  destruct IH as (Hseen & Hval & Hset & Hnd & Hlen & Hsub).
  assert (Hold : ∀ j, (∃ e', e' ∈ before ++ [e] ∧ validate_entry e' = true ∧ str_id e' = Some j) ↔
                  j ∈ seen_ids (vloop before) ∨ (validate_entry e = true ∧ str_id e = Some j)).
  { intros j. rewrite Hseen. split.
    - intros (e' & [He'| ->%list_elem_of_singleton]%elem_of_app & Hv' & Hid); eauto.
    - intros [(e' & ? & ? & ?)|[? ?]]; [exists e'|exists e]; set_solver. }
  rewrite vloop_snoc. unfold validate_step.
  destruct (validate_entry e) eqn:Hve; simpl.
  - destruct (validate_entry_str_id e Hve) as (i & Hi & _). rewrite Hi.
    case_bool_decide as Hin; simpl.
    + split_and!; try done.
      * intros j. rewrite Hold. naive_solver.
      * rewrite !length_app. simpl. lia.
      * set_solver.
    + split_and!.
      * intros j. rewrite Hold. set_solver.
      * apply Forall_app. split; [done|]. by constructor.
      * rewrite omap_app. simpl. rewrite Hi. simpl.
        rewrite list_to_set_app_L. simpl. rewrite Hset. set_solver.
      * rewrite omap_app. simpl. rewrite Hi. simpl.
        apply NoDup_app. split; [done|]. split.
        -- intros x Hx ->%list_elem_of_singleton. apply Hin. rewrite Hset. set_solver.
        -- apply NoDup_singleton.
      * rewrite !length_app. simpl. lia.
      * set_solver.
  - split_and!; try done.
    + intros j. rewrite Hold. naive_solver.
    + rewrite !length_app. simpl. lia.
    + set_solver.
Qed.

Lemma validate_entries_vloop l :
  validate_entries l = (valid_entries (vloop l), errors (vloop l)).
Proof. done. Qed.

Lemma validate_step_cases st e :
  (validate_step st e =
     VState (valid_entries st ++ [e]) (errors st)
       (from_option (λ i, {[i]} ∪ seen_ids st) (seen_ids st) (str_id e)) ∧
   validate_entry e = true ∧
   ∃ i, str_id e = Some i ∧ i ∉ seen_ids st) ∨
  ((∃ msg, validate_step st e =
            VState (valid_entries st) (errors st ++ [msg]) (seen_ids st)) ∧
   (validate_entry e = false ∨ ∃ i, str_id e = Some i ∧ i ∈ seen_ids st)).
Proof.
  unfold validate_step.
  destruct (validate_entry e) eqn:Hve; simpl; [|right; eauto].
  destruct (validate_entry_str_id e Hve) as (i & Hi & _). rewrite Hi. simpl.
  case_bool_decide; [right|left]; eauto 10.
Qed.

Lemma accepts_iff before e :
  accepts before e ↔
  validate_entry e = true ∧
  ∀ e', e' ∈ before → validate_entry e' = true → str_id e' ≠ str_id e.
Proof.
  unfold accepts. rewrite !validate_entries_vloop. simpl. rewrite vloop_snoc.
  destruct (vloop_inv before) as (Hseen & _).
  destruct (validate_step_cases (vloop before) e)
    as [(-> & Hve & i & Hi & Hni)|((msg & ->) & Hrej)]; simpl.
  - split; [intros _|done]. split; [done|].
    intros e' He' Hve' Heq. apply Hni, Hseen. exists e'. by rewrite Heq.
  - split.
    + intros Heq. apply (f_equal length) in Heq. rewrite length_app in Heq.
      simpl in Heq. lia.
    + intros [Hve Hfresh]. destruct Hrej as [?|(i & Hi & Hin)]; [congruence|].
      apply Hseen in Hin as (e' & He' & Hve' & Hid').
      destruct (Hfresh e' He' Hve'). congruence.
Qed.

Lemma accepts_or_rejects before e :
  (accepts before e ∧ (validate_entries (before ++ [e])).2 = (validate_entries before).2) ∨
  (rejects before e ∧ ¬ accepts before e).
Proof.
  unfold accepts, rejects. rewrite !validate_entries_vloop. simpl. rewrite vloop_snoc.
  destruct (validate_step_cases (vloop before) e)
    as [(-> & _)|((msg & ->) & _)]; simpl; [by left|right].
  split; [by exists msg|].
  intros Heq. apply (f_equal length) in Heq. rewrite length_app in Heq.
  simpl in Heq. lia.
Qed.

Lemma valid_prefix before rest :
  (validate_entries before).1 `prefix_of` (validate_entries (before ++ rest)).1.
Proof.
  induction rest as [|e rest IH] using rev_ind.
  { by rewrite app_nil_r. }
  rewrite app_assoc. etrans; [apply IH|].
  rewrite !validate_entries_vloop. simpl. rewrite vloop_snoc.
  destruct (validate_step_cases (vloop (before ++ rest)) e)
    as [(-> & _)|((msg & ->) & _)]; simpl; [|done].
  by eexists.
Qed.

Lemma validate_entries_total entries :
  length (validate_entries entries).1 + length (validate_entries entries).2
  = length entries.
Proof. destruct (vloop_inv entries) as (_ & _ & _ & _ & Hlen & _). done. Qed.

Lemma validate_step_valid st e i :
  validate_entry e = true → str_id e = Some i →
  validate_step st e =
    if bool_decide (i ∈ seen_ids st) then
      VState (valid_entries st) (errors st ++ ["Duplicate entry ID: " +:+ i])
        (seen_ids st)
    else VState (valid_entries st ++ [e]) (errors st) ({[i]} ∪ seen_ids st).
Proof. intros Hve Hi. unfold validate_step. by rewrite Hve, Hi. Qed.

Lemma validate_entries_pair a b i :
  validate_entry a = true → validate_entry b = true →
  str_id a = Some i → str_id b = Some i →
  validate_entries [a; b] = ([a], ["Duplicate entry ID: " +:+ i]).
Proof.
  intros Ha Hb Hia Hib. unfold validate_entries. simpl foldl.
  rewrite (validate_step_valid _ a i Ha Hia). simpl.
  rewrite (validate_step_valid _ b i Hb Hib). simpl.
  rewrite bool_decide_eq_true_2 by set_solver. done.
Qed.

(** ** Diff computation *)

Lemma index_by_id_snoc entries e :
  index_by_id (entries ++ [e]) = index_step (index_by_id entries) e.
Proof. unfold index_by_id. by rewrite foldl_snoc. Qed.

Lemma index_by_id_Some entries :
  Forall (λ e, is_Some (str_id e)) entries →
  ∃ m, index_by_id entries = Some m ∧
       ∀ i, m !! i = current_record entries i.
Proof.
  induction entries as [|e entries IH] using rev_ind; intros Hall.
  { exists ∅. split; [done|]. intros i. by rewrite lookup_empty. }
  apply Forall_app in Hall as [Hall He].
  destruct (IH Hall) as (m & Hm & Hlook).
  apply Forall_singleton in He as [j Hj].
  exists (<[j := e]> m). split.
  { rewrite index_by_id_snoc, Hm. simpl. by rewrite Hj. }
  intros i. unfold current_record. rewrite filter_app, filter_cons, filter_nil.
  destruct (decide (j = i)) as [->|Hne].
  - rewrite lookup_insert_eq. rewrite decide_True by done. by rewrite last_snoc.
  - rewrite lookup_insert_ne by done. rewrite decide_False by congruence.
    rewrite app_nil_r. apply Hlook.
Qed.

Lemma current_record_Some entries i e :
  current_record entries i = Some e → e ∈ entries ∧ str_id e = Some i.
Proof.
  unfold current_record. intros Hlast.
  assert (e ∈ filter (λ e, str_id e = Some i) entries) as Hin.
  { apply last_Some in Hlast as [l' ->]. set_solver. }
  by apply list_elem_of_filter in Hin as [? ?].
Qed.

Lemma current_record_is_Some entries i :
  is_Some (current_record entries i) ↔ i ∈ omap str_id entries.
Proof.
  unfold current_record. rewrite list_elem_of_omap. split.
  - intros [e He]. exists e. by apply current_record_Some.
  - intros (e & He & Hi).
    assert (e ∈ filter (λ e, str_id e = Some i) entries) as Hin
      by by apply list_elem_of_filter.
    destruct (filter _ entries) as [|x l] eqn:Hf using rev_ind.
    + by apply elem_of_nil in Hin.
    + rewrite last_snoc. eauto.
Qed.

Lemma valid_fields e :
  validate_entry e = true →
  ∃ i c a t s, e !! "id" = Some (VStr i) ∧ e !! "content" = Some (VStr c) ∧
    e !! "author" = Some a ∧ e !! "timestamp" = Some t ∧
    e !! "scraped_at" = Some s.
Proof.
  intros (Hall & (i & Hi & _) & (c & Hc))%validate_entry_spec.
  destruct (Hall "author") as [a Ha]; [set_solver|].
  destruct (Hall "timestamp") as [t Ht]; [set_solver|].
  destruct (Hall "scraped_at") as [s Hs]; [set_solver|].
  eauto 10.
Qed.

Lemma mapM_lookup_elements (m : state) (X : gset string) :
  X ⊆ dom m →
  (∀ i e, m !! i = Some e → str_id e = Some i) →
  ∃ l, mapM (λ eid, m !! eid) (elements X) = Some l ∧
       omap str_id l = elements X ∧
       Forall2 (λ i e, m !! i = Some e) (elements X) l.
Proof.
  intros Hsub Hid.
  destruct (mapM_is_Some_2 (λ eid, m !! eid) (elements X)) as [l Hl].
  { apply Forall_forall. intros i Hi%elem_of_elements. simpl.
    by apply elem_of_dom, Hsub. }
  exists l. split; [done|]. apply mapM_Some in Hl. split; [|done].
  revert Hl. generalize (elements X). intros ids Hl.
  induction Hl as [|i e ids l Hie _ IH]; [done|].
  simpl. rewrite (Hid _ _ Hie). simpl. f_equal. apply IH.
Qed.

Lemma edited_fold (m prev : state) ids acc :
  (∀ i, i ∈ ids → ∃ c p, m !! i = Some c ∧ prev !! i = Some p ∧
                  validate_entry c = true ∧ validate_entry p = true) →
  ∃ res, foldl (edited_step m prev) (Some acc) ids = Some (acc ++ res) ∧
    ed_id <$> res =
      filter (λ i, changed_at m prev i = true) ids ∧
    Forall (λ ed, ∃ c p, m !! ed_id ed = Some c ∧ prev !! ed_id ed = Some p ∧
                          reports ed c p) res.
Proof.
  revert acc. induction ids as [|i ids IH]; intros acc Hids.
  { exists []. by rewrite app_nil_r. }
  destruct (Hids i) as (c & p & Hc & Hp & Hvc & Hvp); [set_solver|].
  destruct (valid_fields c Hvc) as (ci & cc & ca & ct & cs & Hci & Hcc & Hca & Hct & Hcs).
  destruct (valid_fields p Hvp) as (pi & pc & pa & pt & ps & Hpi & Hpc & Hpa & Hpt & Hps).
  assert (Hch : changed c p = negb (eqb (VStr cc) (VStr pc)) || negb (eqb ct pt)).
  { unfold changed. by rewrite Hcc, Hpc, Hct, Hpt. }
  cbn [foldl]. rewrite filter_cons.
  assert (Hstep : edited_step m prev (Some acc) i =
            Some (if changed c p
                  then acc ++ [EditedEntry i ca (VStr pc, pt) (VStr cc, ct) cs]
                  else acc)).
  { unfold edited_step. simpl. rewrite Hc, Hp. simpl.
    rewrite Hcc, Hpc. simpl. rewrite Hct, Hpt, Hca, Hcs. simpl.
    rewrite Hch. simpl. destruct (negb (bool_decide (cc = pc))); simpl; [done|].
    by destruct (negb (eqb ct pt)). }
  rewrite Hstep.
  destruct (changed c p) eqn:Hcp.
  - destruct (IH (acc ++ [EditedEntry i ca (VStr pc, pt) (VStr cc, ct) cs]))
      as (res & Hres & Hids' & Hall); [set_solver|].
    exists (EditedEntry i ca (VStr pc, pt) (VStr cc, ct) cs :: res).
    split; [by rewrite Hres, <-app_assoc|]. split.
    + rewrite decide_True by (unfold changed_at; by rewrite Hc, Hp).
      rewrite fmap_cons. simpl. by f_equal.
    + constructor; [|done]. exists c, p. by repeat split.
  - destruct (IH acc) as (res & Hres & Hids' & Hall); [set_solver|].
    exists res. split; [done|]. split; [|done].
    rewrite decide_False; [done|].
    unfold changed_at. rewrite Hc, Hp. congruence.
Qed.

Lemma eqb_refl v : eqb v v = true.
Proof. destruct v; simpl; by rewrite ?bool_decide_eq_true_2. Qed.

Lemma omap_length_all {A B} (f : A → option B) (l : list A) (k : list B) :
  Forall2 (λ y x, f x = Some y) k l → omap f l = k.
Proof.
  induction 1 as [|y x k l Hxy _ IH]; [done|].
  simpl. rewrite Hxy. simpl. by f_equal.
Qed.

Lemma compute_diff_exact current previous :
  Forall (λ e, validate_entry e = true) current →
  map_Forall (λ i e, validate_entry e = true ∧ str_id e = Some i) previous →
  ∃ m d,
    compute_diff current previous = Some d ∧
    (∀ i, m !! i = current_record current i) ∧
    dom m = batch_ids current ∧
    Forall2 (λ i e, m !! i = Some e ∧ str_id e = Some i)
      (elements (batch_ids current ∖ dom previous)) (diff_new d) ∧
    Forall2 (λ i e, previous !! i = Some e ∧ str_id e = Some i)
      (elements (dom previous ∖ batch_ids current)) (diff_deleted d) ∧
    ed_id <$> diff_edited d =
      filter (λ i, changed_at m previous i = true)
        (elements (batch_ids current ∩ dom previous)) ∧
    Forall (λ ed, ∃ c p, m !! ed_id ed = Some c ∧
                         previous !! ed_id ed = Some p ∧ reports ed c p)
      (diff_edited d) ∧
    diff_summary d =
      Summary (length (diff_new d)) (length (diff_edited d))
        (length (diff_deleted d)) (length current) (size previous).
Proof.
  intros Hcur Hprev.
  destruct (index_by_id_Some current) as (m & Hm & Hlook).
  { eapply Forall_impl; [apply Hcur|]. intros e He.
    destruct (validate_entry_str_id e He) as (i & -> & _). eauto. }
  assert (Hmid : ∀ i e, m !! i = Some e → str_id e = Some i).
  { intros i e. rewrite Hlook. by intros [_ ?]%current_record_Some. }
  assert (Hdom : dom m = batch_ids current).
  { apply set_eq. intros i. rewrite elem_of_dom, Hlook, current_record_is_Some.
    unfold batch_ids. by rewrite elem_of_list_to_set. }
  destruct (mapM_lookup_elements m (dom m ∖ dom previous))
    as (news & Hnews & _ & Hnews2); [set_solver|done|].
  destruct (mapM_lookup_elements previous (dom previous ∖ dom m))
    as (dels & Hdels & _ & Hdels2); [set_solver| |].
  { intros i e Hie. by destruct (Hprev i e Hie). }
  destruct (edited_fold m previous (elements (dom m ∩ dom previous)) [])
    as (eds & Heds & Hedids & Hedall).
  { intros i [Him Hip]%elem_of_elements%elem_of_intersection.
    apply elem_of_dom in Him as [c Hc]. apply elem_of_dom in Hip as [p Hp].
    exists c, p. split_and!; try done.
    - rewrite Hlook in Hc. apply current_record_Some in Hc as [Hin _].
      by eapply Forall_forall in Hcur.
    - by destruct (Hprev i p Hp). }
  exists m, (DiffResult news eds dels
               (Summary (length news) (length eds) (length dels)
                  (length current) (size previous))).
  split.
  { unfold compute_diff. rewrite Hm. simpl. rewrite Hnews. simpl.
    rewrite Hdels. simpl. rewrite Heds. done. }
  rewrite <-Hdom. simpl. split_and!; try done.
  - eapply Forall2_impl; [apply Hnews2|]. naive_solver.
  - eapply Forall2_impl; [apply Hdels2|]. intros i e Hie. split; [done|].
    by destruct (Hprev i e Hie).
Qed.

Lemma NoDup_singleton_eq {A} (l : list A) (a : A) :
  NoDup l → (∀ x, x ∈ l ↔ x = a) → l = [a].
Proof.
  intros Hnd Hmem. destruct l as [|x l].
  { assert (a ∈ []) as ?%elem_of_nil by by apply Hmem. done. }
  assert (x = a) as -> by (apply Hmem; set_solver).
  destruct l as [|y l]; [done|].
  assert (y = a) as -> by (apply Hmem; set_solver).
  apply NoDup_cons in Hnd as [Hnin _]. set_solver.
Qed.

Lemma scenario_new_ids :
  ({["1"; "2"; "4"; "5"]} : gset string) ∖ {["1"; "2"; "3"]} = list_to_set ["4"; "5"].
Proof. by vm_compute. Qed.

Lemma scenario_deleted_ids :
  ({["1"; "2"; "3"]} : gset string) ∖ {["1"; "2"; "4"; "5"]} = list_to_set ["3"].
Proof. by vm_compute. Qed.

Lemma scenario_common_ids :
  ({["1"; "2"; "4"; "5"]} : gset string) ∩ {["1"; "2"; "3"]} = list_to_set ["1"; "2"].
Proof. by vm_compute. Qed.

(** Claim C1.  For a batch of validated records and a previous state of
    validated records keyed by their id, [compute_diff] returns a result
    (it does not raise) in which: the ids of [new] are those of the batch
    that the state lacks, the ids of [deleted] are those of the state
    that the batch lacks, and the ids of [edited] are those present in
    both whose content or timestamp differ; each common id is reported at
    most once and exactly when it changed; every reported record is the
    record of that id and an edited one carries both versions; the three
    id lists are pairwise disjoint; the summary counts their sizes.  In
    the scenario (ids 1, 2, 4, 5 now and 1, 2, 3 before, record 2 with
    another content, record 1 unchanged) the new ids are 4 and 5, the
    edited id is 2, the deleted id is 3 and the counts are 2, 1, 1. *)
Theorem compute_diff_partition (current : list entry) (previous : state) :
  Forall (λ e, validate_entry e = true) current →
  map_Forall (λ i e, validate_entry e = true ∧ str_id e = Some i) previous →
  ∃ d, compute_diff current previous = Some d ∧
    let new_ids := omap str_id (diff_new d) in
    let edited_ids := ed_id <$> diff_edited d in
    let deleted_ids := omap str_id (diff_deleted d) in
    new_ids ≡ₚ elements (batch_ids current ∖ dom previous) ∧
    deleted_ids ≡ₚ elements (dom previous ∖ batch_ids current) ∧
    (∀ i, i ∈ edited_ids ↔
          ∃ c p, current_record current i = Some c ∧ previous !! i = Some p ∧
                 changed c p = true) ∧
    NoDup edited_ids ∧
    Forall (λ e, ∃ i, str_id e = Some i ∧ current_record current i = Some e)
      (diff_new d) ∧
    Forall (λ e, ∃ i, str_id e = Some i ∧ previous !! i = Some e)
      (diff_deleted d) ∧
    Forall (λ ed, ∃ c p, current_record current (ed_id ed) = Some c ∧
                         previous !! ed_id ed = Some p ∧ reports ed c p)
      (diff_edited d) ∧
    (∀ i, ¬ (i ∈ new_ids ∧ i ∈ edited_ids)) ∧
    (∀ i, ¬ (i ∈ new_ids ∧ i ∈ deleted_ids)) ∧
    (∀ i, ¬ (i ∈ edited_ids ∧ i ∈ deleted_ids)) ∧
    diff_summary d =
      Summary (size (batch_ids current ∖ dom previous))
        (length (diff_edited d))
        (size (dom previous ∖ batch_ids current))
        (length current) (size previous) ∧
    length (diff_new d) = new_count (diff_summary d) ∧
    length (diff_deleted d) = deleted_count (diff_summary d) ∧
    (batch_ids current = {["1"; "2"; "4"; "5"]} →
     dom previous = {["1"; "2"; "3"]} →
     (∀ c p, current_record current "2" = Some c → previous !! "2" = Some p →
             c !! "content" ≠ p !! "content") →
     (∀ c p, current_record current "1" = Some c → previous !! "1" = Some p →
             c !! "content" = p !! "content" ∧
             c !! "timestamp" = p !! "timestamp") →
     new_ids ≡ₚ ["4"; "5"] ∧ edited_ids = ["2"] ∧ deleted_ids = ["3"] ∧
     new_count (diff_summary d) = 2 ∧ edited_count (diff_summary d) = 1 ∧
     deleted_count (diff_summary d) = 1).
Proof.
  intros Hcur Hprev.
  destruct (compute_diff_exact current previous Hcur Hprev)
    as (m & d & Hd & Hlook & Hdom & Hnew & Hdel & Hedids & Hedall & Hsum).
  exists d. split; [done|]. cbv zeta.
  assert (Hnewids : omap str_id (diff_new d)
                    = elements (batch_ids current ∖ dom previous)).
  { apply omap_length_all. eapply Forall2_impl; [apply Hnew|]. naive_solver. }
  assert (Hdelids : omap str_id (diff_deleted d)
                    = elements (dom previous ∖ batch_ids current)).
  { apply omap_length_all. eapply Forall2_impl; [apply Hdel|]. naive_solver. }
  assert (Hmem : ∀ i, i ∈ ed_id <$> diff_edited d ↔
            ∃ c p, current_record current i = Some c ∧ previous !! i = Some p ∧
                   changed c p = true).
  { intros i. rewrite Hedids, list_elem_of_filter, elem_of_elements.
    unfold changed_at. rewrite Hlook. split.
    - intros [Hch _]. destruct (current_record current i) as [c|]; [|done].
      destruct (previous !! i) as [p|]; [|done]. eauto.
    - intros (c & p & Hc & Hp & Hch). rewrite Hc, Hp. split; [done|].
      apply elem_of_intersection. split.
      + rewrite <-Hdom. apply elem_of_dom. rewrite Hlook. eauto.
      + apply elem_of_dom. eauto. }
  assert (Hnd : NoDup (ed_id <$> diff_edited d)).
  { rewrite Hedids. apply NoDup_filter, NoDup_elements. }
  assert (Hedsub : ∀ i, i ∈ ed_id <$> diff_edited d →
                        i ∈ batch_ids current ∩ dom previous).
  { intros i. rewrite Hedids, list_elem_of_filter, elem_of_elements. tauto. }
  assert (Hlen_new : length (diff_new d) = size (batch_ids current ∖ dom previous)).
  { symmetry. eapply Forall2_length, Hnew. }
  assert (Hlen_del : length (diff_deleted d) = size (dom previous ∖ batch_ids current)).
  { symmetry. eapply Forall2_length, Hdel. }
  split_and!.
  - by rewrite Hnewids.
  - by rewrite Hdelids.
  - done.
  - done.
  - apply Forall_forall. intros e He.
    apply list_elem_of_lookup in He as [k Hk].
    destruct (Forall2_lookup_r _ _ _ _ _ Hnew Hk) as (i & _ & Hie & Hid).
    exists i. by rewrite <-Hlook.
  - apply Forall_forall. intros e He.
    apply list_elem_of_lookup in He as [k Hk].
    destruct (Forall2_lookup_r _ _ _ _ _ Hdel Hk) as (i & _ & Hie & Hid).
    eauto.
  - eapply Forall_impl; [apply Hedall|]. intros ed (c & p & Hc & Hp & Hr).
    exists c, p. by rewrite <-Hlook.
  - intros i [Hn He%Hedsub]. rewrite Hnewids, elem_of_elements in Hn. set_solver.
  - intros i [Hn Hdl]. rewrite Hnewids, elem_of_elements in Hn.
    rewrite Hdelids, elem_of_elements in Hdl. set_solver.
  - intros i [He%Hedsub Hdl]. rewrite Hdelids, elem_of_elements in Hdl. set_solver.
  - by rewrite Hsum, Hlen_new, Hlen_del.
  - by rewrite Hsum.
  - by rewrite Hsum.
  - intros Hb Hp H2 H1.
    assert (Hed2 : ed_id <$> diff_edited d = ["2"]).
    { apply NoDup_singleton_eq; [done|]. intros i. split.
      - intros Hi. pose proof (Hedsub i Hi) as Hin.
        rewrite Hb, Hp, scenario_common_ids in Hin.
        apply elem_of_list_to_set in Hin.
        apply Hmem in Hi as (c & p & Hc & Hpp & Hch).
        assert (i = "1" ∨ i = "2") as [-> | ->] by set_solver; [|done].
        destruct (H1 c p Hc Hpp) as [Hcc Hct]. unfold changed in Hch.
        rewrite Hcc, Hct in Hch.
        destruct (p !! "content") as [pc|]; [|done].
        destruct (p !! "timestamp") as [pt|]; [|done].
        by rewrite !eqb_refl in Hch.
      - intros ->. apply Hmem.
        assert ("2" ∈ dom m) as [c Hc]%elem_of_dom by (rewrite Hdom, Hb; set_solver).
        assert ("2" ∈ dom previous) as [p Hpp]%elem_of_dom by (rewrite Hp; set_solver).
        rewrite Hlook in Hc. exists c, p. split_and!; try done.
        pose proof (H2 c p Hc Hpp) as Hne.
        assert (validate_entry c = true) as Hvc.
        { apply current_record_Some in Hc as [Hin _].
          by eapply Forall_forall in Hcur. }
        destruct (Hprev "2" p Hpp) as [Hvp _].
        destruct (valid_fields c Hvc) as (? & cc & ? & ct & ? & _ & Hcc & _ & Hct & _).
        destruct (valid_fields p Hvp) as (? & pc & ? & pt & ? & _ & Hpc & _ & Hpt & _).
        unfold changed. rewrite Hcc, Hpc, Hct, Hpt. simpl.
        rewrite bool_decide_eq_false_2; [done|]. congruence. }
    assert (Hn45 : omap str_id (diff_new d) ≡ₚ ["4"; "5"]).
    { rewrite Hnewids, Hb, Hp, scenario_new_ids.
      apply elements_list_to_set. repeat constructor; set_solver. }
    assert (Hd3 : omap str_id (diff_deleted d) = ["3"]).
    { apply Permutation_singleton_r.
      rewrite Hdelids, Hb, Hp, scenario_deleted_ids.
      apply elements_list_to_set. repeat constructor; set_solver. }
    split_and!; try done.
    + rewrite Hsum. simpl. rewrite Hlen_new, Hb, Hp, scenario_new_ids. by vm_compute.
    + rewrite Hsum. simpl. apply (f_equal length) in Hed2.
      by rewrite length_fmap in Hed2.
    + rewrite Hsum. simpl. rewrite Hlen_del, Hb, Hp, scenario_deleted_ids. by vm_compute.
Qed.

Lemma scenario_current_valid :
  Forall (λ e, validate_entry e = true) scenario_current.
Proof. repeat constructor. Defined.

Lemma scenario_previous_valid :
  map_Forall (λ i e, validate_entry e = true ∧ str_id e = Some i) scenario_previous.
Proof.
  unfold scenario_previous. repeat apply map_Forall_insert_2; try done.
Defined.

Lemma compute_diff_partition_witness :
  ∃ d, compute_diff scenario_current scenario_previous = Some d ∧
       new_count (diff_summary d) = 2 ∧ edited_count (diff_summary d) = 1 ∧
       deleted_count (diff_summary d) = 1.
Proof.
  destruct (compute_diff_partition scenario_current scenario_previous
              scenario_current_valid scenario_previous_valid)
    as (d & Hd & H).
  exists d. split; [exact Hd|].
  destruct H as (_ & _ & _ & _ & _ & _ & _ & _ & _ & _ & _ & _ & _ & Hsc).
  destruct Hsc as (_ & _ & _ & Hn & He & Hdl).
  - by vm_compute.
  - by vm_compute.
  - intros c p Hc Hp. vm_compute in Hc, Hp. simplify_eq. by vm_compute.
  - intros c p Hc Hp. vm_compute in Hc, Hp. simplify_eq. by vm_compute.
  - done.
Defined.

(** ** The state store *)

(** *** Loading *)

Lemma try_backup_usable disk sf i st :
  try_backup disk sf i = Some st ↔ backup_usable disk sf i st.
Proof.
  unfold try_backup, backup_usable. split.
  - destruct (disk !! backup_path sf i) as [[raw|[items|d|v]]|]; try done. eauto.
  - by intros (items & -> & ->).
Qed.

Lemma backup_loop_cons disk sf i rest :
  match try_backup disk sf i with
  | Some st =>
      backup_loop disk sf (i :: rest) = (st, [AttemptBackup i; LoadedBackup i])
  | None =>
      (backup_loop disk sf (i :: rest)).1 = (backup_loop disk sf rest).1 ∧
      (AllBackupsFailed ∈ (backup_loop disk sf rest).2 →
       AllBackupsFailed ∈ (backup_loop disk sf (i :: rest)).2)
  end.
Proof.
  unfold try_backup. simpl.
  destruct (disk !! backup_path sf i) as [[raw|[items|d|v]]|]; simpl.
  - destruct (backup_loop disk sf rest) as [st log]. simpl. set_solver.
  - destruct (valid_by_id items); [done|].
    destruct (backup_loop disk sf rest) as [st log]. simpl. set_solver.
  - destruct (backup_loop disk sf rest) as [st log]. simpl. set_solver.
  - destruct (backup_loop disk sf rest) as [st log]. simpl. set_solver.
  - done.
Qed.

Lemma backup_loop_first disk sf pre i post st :
  Forall (λ j, try_backup disk sf j = None) pre →
  try_backup disk sf i = Some st →
  backup_loop disk sf (pre ++ i :: post) = (st, [AttemptBackup i; LoadedBackup i]) ∨
  ((backup_loop disk sf (pre ++ i :: post)).1 = st ∧
   LoadedBackup i ∈ (backup_loop disk sf (pre ++ i :: post)).2).
Proof.
  intros Hpre Hi. induction Hpre as [|j pre Hj _ IH].
  - left. pose proof (backup_loop_cons disk sf i post) as H. by rewrite Hi in H.
  - right. simpl app.
    assert (Hrest : (backup_loop disk sf (pre ++ i :: post)).1 = st ∧
              LoadedBackup i ∈ (backup_loop disk sf (pre ++ i :: post)).2).
    { destruct IH as [->|?]; [|done]. simpl. set_solver. }
    clear IH. destruct Hrest as [Hst Hlog].
    unfold try_backup in Hj. simpl.
    destruct (disk !! backup_path sf j) as [[raw|[items|d|v]]|]; simpl; try done;
      try (destruct (backup_loop disk sf (pre ++ i :: post)) as [st' log];
           simpl in *; split; [done|set_solver]).
    rewrite Hj.
    destruct (backup_loop disk sf (pre ++ i :: post)) as [st' log].
    simpl in *. split; [done|set_solver].
Qed.

Lemma backup_loop_none disk sf idxs :
  Forall (λ j, try_backup disk sf j = None) idxs →
  (backup_loop disk sf idxs).1 = ∅ ∧
  AllBackupsFailed ∈ (backup_loop disk sf idxs).2.
Proof.
  induction 1 as [|j idxs Hj _ [IH1 IH2]].
  { simpl. split; [done|set_solver]. }
  pose proof (backup_loop_cons disk sf j idxs) as H. rewrite Hj in H.
  destruct H as [-> H]. auto.
Qed.

Lemma valid_by_id_snoc items it :
  valid_by_id (items ++ [it]) = by_id_step (valid_by_id items) it.
Proof. unfold valid_by_id. by rewrite foldl_snoc. Qed.

Lemma valid_by_id_records items st :
  valid_by_id items = Some st →
  ∀ i e, st !! i = Some e →
         IDict e ∈ items ∧ validate_entry e = true ∧ str_id e = Some i.
Proof.
  revert st. induction items as [|it items IH] using rev_ind; intros st.
  { intros [= <-] i e. by rewrite lookup_empty. }
  rewrite valid_by_id_snoc.
  destruct (valid_by_id items) as [m|]; [|done]. simpl.
  assert (Hm : ∀ i e, m !! i = Some e →
            IDict e ∈ items ++ [it] ∧ validate_entry e = true ∧ str_id e = Some i).
  { intros i e Hie. destruct (IH m eq_refl i e Hie) as (? & ? & ?). set_solver. }
  destruct (validate_item it) as [[|]|] eqn:Hv; simpl; [| |done].
  - destruct it as [d| |]; [|done..]. simpl in Hv.
    destruct (str_id d) as [j|] eqn:Hj; [|done]. simpl.
    intros [= <-] i e. destruct (decide (j = i)) as [->|Hne].
    + rewrite lookup_insert_eq. intros [= <-]. split_and!; [set_solver|congruence|done].
    + rewrite lookup_insert_ne by done. apply Hm.
  - intros [= <-]. apply Hm.
Qed.

Lemma valid_by_id_dicts (entries : list entry) :
  Forall (λ e, validate_entry e = true) entries →
  valid_by_id (IDict <$> entries) = index_by_id entries.
Proof.
  induction entries as [|e entries IH] using rev_ind; intros Hall; [done|].
  apply Forall_app in Hall as [Hall He]. rewrite Forall_singleton in He.
  rewrite fmap_app. simpl. rewrite valid_by_id_snoc, index_by_id_snoc, IH by done.
  unfold by_id_step, index_step. destruct (index_by_id entries); [|done].
  simpl. by rewrite He.
Qed.

Lemma seq_split_at (n i : nat) :
  (1 ≤ i ≤ n)%nat → seq 1 n = seq 1 (i - 1) ++ i :: seq (S i) (n - i).
Proof.
  intros Hi. replace n with ((i - 1) + S (n - i)) at 1 by lia.
  rewrite seq_app. simpl. do 3 f_equal; lia.
Qed.

Lemma load_from_backup_first disk sf i st :
  (1 ≤ i ≤ STATE_BACKUP_COUNT)%nat →
  backup_usable disk sf i st →
  (∀ j st', (1 ≤ j < i)%nat → ¬ backup_usable disk sf j st') →
  (load_state_from_backup disk sf).1 = st ∧
  LoadedBackup i ∈ (load_state_from_backup disk sf).2.
Proof.
  intros Hi Hus Hpre. unfold load_state_from_backup.
  rewrite (seq_split_at _ i Hi).
  destruct (backup_loop_first disk sf (seq 1 (i - 1)) i
              (seq (S i) (STATE_BACKUP_COUNT - i)) st) as [->|?]; try done.
  - apply Forall_forall. intros j Hj%elem_of_seq.
    destruct (try_backup disk sf j) as [st'|] eqn:Hj'; [|done].
    apply try_backup_usable in Hj'. destruct (Hpre j st'); [lia|done].
  - by apply try_backup_usable.
  - simpl. set_solver.
Qed.

Lemma load_from_backup_none disk sf :
  (∀ i st, (1 ≤ i ≤ STATE_BACKUP_COUNT)%nat → ¬ backup_usable disk sf i st) →
  (load_state_from_backup disk sf).1 = ∅ ∧
  AllBackupsFailed ∈ (load_state_from_backup disk sf).2.
Proof.
  intros Hnone. apply backup_loop_none, Forall_forall.
  intros j Hj%elem_of_seq.
  destruct (try_backup disk sf j) as [st'|] eqn:Hj'; [|done].
  apply try_backup_usable in Hj'. destruct (Hnone j st'); [lia|done].
Qed.

Lemma load_state_raises disk sf :
  primary_raises disk sf →
  load_state disk sf =
    ((load_state_from_backup disk sf).1,
     ErrLoadingState :: (load_state_from_backup disk sf).2).
Proof.
  unfold load_state, path_exists.
  intros [(raw & Hraw)|(items & Hit & Hnone)].
  - rewrite Hraw, bool_decide_eq_true_2 by eauto. simpl.
    by destruct (load_state_from_backup disk sf).
  - rewrite Hit, bool_decide_eq_true_2 by eauto. simpl. rewrite Hnone.
    by destruct (load_state_from_backup disk sf).
Qed.

(** Claim C2, as the code has it.  [load_state] returns the empty state
    when the primary file is absent; the valid records of the primary
    file when it holds a list, the invalid ones being dropped without any
    fallback; the empty state with a warning, no backup being read, when
    it holds a document that is not a list.  Only when reading it raises
    does it turn to the backups 1 to 5 in that order: it returns the
    valid records of the first backup that exists, parses to a list and
    validates without raising, and the empty state with the message that
    all backups failed when there is none.  In particular a corrupt
    primary file and a corrupt backup 1 with a good backup 2 give the
    records of backup 2. *)
Theorem load_state_cascade (disk : fs) (state_file : string) :
  (disk !! state_file = None → load_state disk state_file = (∅, [])) ∧
  (∀ items st,
     disk !! state_file = Some (Json (DList items)) →
     valid_by_id items = Some st →
     load_state disk state_file = (st, []) ∧
     ∀ i e, st !! i = Some e →
            IDict e ∈ items ∧ validate_entry e = true ∧ str_id e = Some i) ∧
  (∀ doc,
     disk !! state_file = Some (Json doc) → (∀ items, doc ≠ DList items) →
     load_state disk state_file = (∅, [WarnInvalidFormat])) ∧
  (primary_raises disk state_file →
     ErrLoadingState ∈ (load_state disk state_file).2 ∧
     (∀ i st,
        (1 ≤ i ≤ STATE_BACKUP_COUNT)%nat →
        backup_usable disk state_file i st →
        (∀ j st', (1 ≤ j < i)%nat → ¬ backup_usable disk state_file j st') →
        (load_state disk state_file).1 = st ∧
        LoadedBackup i ∈ (load_state disk state_file).2) ∧
     ((∀ i st, (1 ≤ i ≤ STATE_BACKUP_COUNT)%nat →
               ¬ backup_usable disk state_file i st) →
      (load_state disk state_file).1 = ∅ ∧
      AllBackupsFailed ∈ (load_state disk state_file).2)) ∧
  (∀ raw raw1 items st,
     disk !! state_file = Some (Garbage raw) →
     disk !! backup_path state_file 1 = Some (Garbage raw1) →
     disk !! backup_path state_file 2 = Some (Json (DList items)) →
     valid_by_id items = Some st →
     (load_state disk state_file).1 = st).
Proof.
  split_and!.
  - intros Hnone. unfold load_state, path_exists.
    rewrite bool_decide_eq_false_2; [done|]. rewrite Hnone. by intros [? ?].
  - intros items st Hit Hst. split; [|by apply valid_by_id_records].
    unfold load_state, path_exists.
    rewrite bool_decide_eq_true_2 by (rewrite Hit; eauto). simpl.
    by rewrite Hit, Hst.
  - intros doc Hdoc Hnl. unfold load_state, path_exists.
    rewrite bool_decide_eq_true_2 by (rewrite Hdoc; eauto). simpl.
    rewrite Hdoc. destruct doc as [items| |]; [|done..]. by destruct (Hnl items).
  - intros Hraise. rewrite (load_state_raises _ _ Hraise). simpl. split_and!.
    + set_solver.
    + intros i st Hi Hus Hpre.
      destruct (load_from_backup_first disk state_file i st Hi Hus Hpre).
      split; [done|set_solver].
    + intros Hnone. destruct (load_from_backup_none disk state_file Hnone).
      split; [done|set_solver].
  - intros raw raw1 items st Hp H1 H2 Hst.
    rewrite load_state_raises by (left; eauto). simpl.
    apply (load_from_backup_first disk state_file 2 st).
    + unfold STATE_BACKUP_COUNT. lia.
    + by exists items.
    + intros j st' Hj (items' & Hj' & _). assert (j = 1) as -> by lia. congruence.
Qed.

(** *** Saving *)

Lemma no_valid_entries_iff entries :
  (validate_entries entries).1 = [] ↔
  Forall (λ e, validate_entry e = false) entries.
Proof.
  rewrite validate_entries_vloop. simpl.
  destruct (vloop_inv entries) as (Hseen & Hval & Hset & _ & _ & Hsub).
  split.
  - intros Hnil. apply Forall_forall. intros e He.
    destruct (validate_entry e) eqn:Hve; [|done].
    destruct (validate_entry_str_id e Hve) as (i & Hi & _).
    assert (i ∈ seen_ids (vloop entries)) as Hin by (apply Hseen; eauto).
    rewrite Hset, Hnil in Hin. set_solver.
  - intros Hall. destruct (valid_entries (vloop entries)) as [|e l]; [done|].
    apply Forall_cons in Hval as [Hve _].
    assert (e ∈ entries) as He by set_solver.
    eapply Forall_forall in Hall; [|exact He]. simpl in Hall. congruence.
Qed.

(** Claim C5.  When validation accepts no record of the batch,
    [save_state_atomic] reports failure and leaves every file as it was:
    the state file, the backups and the temporary file included. *)
Theorem save_nothing_valid (entries : list entry) (state_file : string)
    (pid : nat) (disk : fs) :
  (validate_entries entries).1 = [] →
  (save_state_atomic entries state_file pid disk).1 = (disk, false) ∧
  (∀ path, (save_state_atomic entries state_file pid disk).1.1 !! path
           = disk !! path).
Proof.
  intros Hnil. unfold save_state_atomic.
  destruct (validate_entries entries) as [valid errs]. simpl in Hnil.
  by rewrite Hnil.
Qed.

Lemma save_nothing_valid_witness :
  (save_state_atomic [{["id" := VStr "7"]}; ∅] "state.json" 42
     {["state.json" := Garbage "old"]}).1
  = ({["state.json" := Garbage "old"]}, false).
Proof.
  apply (save_nothing_valid [{["id" := VStr "7"]}; ∅] "state.json" 42
           {["state.json" := Garbage "old"]}).
  reflexivity.
Defined.

Lemma save_state_atomic_valid entries state_file pid disk :
  (validate_entries entries).1 ≠ [] →
  ∃ disk' log,
    save_state_atomic entries state_file pid disk = (disk', true, log) ∧
    disk' !! state_file =
      Some (Json (DList (IDict <$> (validate_entries entries).1))).
Proof.
  intros Hne. unfold save_state_atomic.
  destruct (validate_entries entries) as [valid errs]. simpl in *.
  destruct valid as [|e valid]; [done|].
  eexists _, _. split; [done|].
  unfold rename. rewrite lookup_insert_eq. by rewrite lookup_insert_eq.
Qed.

Lemma current_record_unique entries i e :
  NoDup (omap str_id entries) →
  e ∈ entries → str_id e = Some i → current_record entries i = Some e.
Proof.
  intros Hnd He Hi.
  destruct (current_record entries i) as [e'|] eqn:Hrec.
  - apply current_record_Some in Hrec as [He' Hi'].
    f_equal. clear -Hnd He Hi He' Hi'.
    induction entries as [|x entries IH]; [by apply elem_of_nil in He|].
    simpl in Hnd. destruct (str_id x) as [j|] eqn:Hj; simpl in Hnd.
    + apply NoDup_cons in Hnd as [Hnin Hnd].
      apply elem_of_cons in He as [Hx|He]; apply elem_of_cons in He' as [Hx'|He'].
      * congruence.
      * destruct Hnin. apply list_elem_of_omap. exists e'. split; [done|congruence].
      * destruct Hnin. apply list_elem_of_omap. exists e. split; [done|congruence].
      * by apply IH.
    + apply elem_of_cons in He as [Hx|He]; [congruence|].
      apply elem_of_cons in He' as [Hx'|He']; [congruence|]. by apply IH.
  - assert (is_Some (current_record entries i)) as [? ?]; [|congruence].
    apply current_record_is_Some, list_elem_of_omap. eauto.
Qed.

(** Claim C4.  When validation accepts at least one record of the
    batch, [save_state_atomic] succeeds and [load_state] on the files it
    leaves returns, without any message, a state that holds exactly the
    accepted records, each under its own id, and nothing else. *)
Theorem save_load_roundtrip (entries : list entry) (state_file : string)
    (pid : nat) (disk : fs) :
  (validate_entries entries).1 ≠ [] →
  ∃ disk' log st,
    save_state_atomic entries state_file pid disk = (disk', true, log) ∧
    load_state disk' state_file = (st, []) ∧
    (∀ e, (∃ i, st !! i = Some e) ↔ e ∈ (validate_entries entries).1) ∧
    (∀ i e, st !! i = Some e → e !! "id" = Some (VStr i)) ∧
    size st = length (validate_entries entries).1.
Proof.
  intros Hne.
  destruct (save_state_atomic_valid entries state_file pid disk Hne)
    as (disk' & log & Hsave & Hfile).
  rewrite validate_entries_vloop in *. simpl in *.
  destruct (vloop_inv entries) as (_ & Hval & _ & Hnd & _ & _).
  set (valid := valid_entries (vloop entries)) in *.
  destruct (index_by_id_Some valid) as (st & Hst & Hlook).
  { eapply Forall_impl; [apply Hval|]. intros e He.
    destruct (validate_entry_str_id e He) as (i & -> & _). eauto. }
  exists disk', log, st. split_and!.
  - done.
  - unfold load_state, path_exists.
    rewrite bool_decide_eq_true_2 by (rewrite Hfile; eauto). simpl.
    by rewrite Hfile, valid_by_id_dicts, Hst.
  - intros e. split.
    + intros [i Hi]. rewrite Hlook in Hi. by apply current_record_Some in Hi as [? _].
    + intros He. eapply Forall_forall in Hval as Hve; [|exact He].
      destruct (validate_entry_str_id e Hve) as (i & Hi & _).
      exists i. rewrite Hlook. by apply current_record_unique.
  - intros i e. rewrite Hlook. intros [_ Hi]%current_record_Some.
    unfold str_id in Hi. destruct (e !! "id") as [[]|]; congruence.
  - assert (dom st = list_to_set (omap str_id valid)) as Hdom.
    { apply set_eq. intros i.
      rewrite elem_of_dom, Hlook, current_record_is_Some.
      by rewrite elem_of_list_to_set. }
    rewrite <-size_dom, Hdom, size_list_to_set by done.
    clear -Hval. induction Hval as [|e l Hve _ IH]; [done|].
    simpl. destruct (validate_entry_str_id e Hve) as (i & -> & _).
    simpl. by f_equal.
Qed.

Lemma save_load_roundtrip_witness :
  ∃ disk' log st,
    save_state_atomic scenario_current "state.json" 42 ∅ = (disk', true, log) ∧
    load_state disk' "state.json" = (st, []) ∧
    size st = 4.
Proof.
  destruct (save_load_roundtrip scenario_current "state.json" 42 ∅)
    as (disk' & log & st & Hsave & Hload & _ & _ & Hsize).
  - vm_compute. discriminate.
  - exists disk', log, st. split; [exact Hsave|]. split; [exact Hload|].
    rewrite Hsize. reflexivity.
Defined.

Lemma load_state_cascade_witness :
  primary_raises disk_corrupt "state.json" ∧
  (load_state disk_corrupt "state.json").1 = state_1 ∧
  LoadedBackup 2 ∈ (load_state disk_corrupt "state.json").2.
Proof.
  assert (Hraise : primary_raises disk_corrupt "state.json").
  { left. exists "{{{". reflexivity. }
  split; [exact Hraise|].
  destruct (load_state_cascade disk_corrupt "state.json")
    as (_ & _ & _ & Hcascade & _).
  destruct (Hcascade Hraise) as (_ & Hfirst & _).
  apply (Hfirst 2 state_1).
  - unfold STATE_BACKUP_COUNT. lia.
  - exists [IDict record_1]. split; reflexivity.
  - intros j st' Hj (items & Hfile & _).
    assert (j = 1) as -> by lia. vm_compute in Hfile. discriminate.
Defined.

(** With a good backup 1, a primary file that holds a JSON object, or a
    list whose only record is incomplete, does not make [load_state]
    return the records of the backup. *)
Lemma load_state_no_fallback :
  backup_usable disk_object "state.json" 1 state_1 ∧
  load_state disk_object "state.json" = (∅, [WarnInvalidFormat]) ∧
  (load_state disk_object "state.json").1 ≠ state_1 ∧
  backup_usable disk_incomplete "state.json" 1 state_1 ∧
  load_state disk_incomplete "state.json" = (∅, []) ∧
  (load_state disk_incomplete "state.json").1 ≠ state_1.
Proof.
  assert (Hne : (∅ : state) ≠ state_1).
  { intros Heq. apply (f_equal (λ m : state, m !! "1")) in Heq.
    vm_compute in Heq. discriminate. }
  split_and!.
  - exists [IDict record_1]. split; reflexivity.
  - reflexivity.
  - exact Hne.
  - exists [IDict record_1]. split; reflexivity.
  - reflexivity.
  - exact Hne.
Qed.

(** ** Acceptance of a record *)

(** Claim C6, as the code has it.  [validate_entry] holds exactly for
    the records with all required fields, a non-empty string id and a
    string content.  A record is accepted exactly when [validate_entry]
    holds for it and no earlier record of the batch for which
    [validate_entry] holds carries its id; otherwise it is rejected with
    one error, and never both.  What was accepted stays accepted
    whatever follows, and every record of the batch is either accepted or
    reported.  Of two structurally valid records with one id the first is
    accepted and the second reported as a duplicate. *)
Theorem validate_entries_accepts (before : list entry) (e : entry) :
  (validate_entry e = true ↔ well_formed e) ∧
  (accepts before e ↔
     validate_entry e = true ∧
     ∀ e', e' ∈ before → validate_entry e' = true → str_id e' ≠ str_id e) ∧
  (accepts before e ∨ rejects before e) ∧
  ¬ (accepts before e ∧ rejects before e) ∧
  (∀ rest,
     (validate_entries (before ++ [e])).1
       `prefix_of` (validate_entries (before ++ [e] ++ rest)).1 ∧
     length (validate_entries (before ++ [e] ++ rest)).1
       + length (validate_entries (before ++ [e] ++ rest)).2
     = length (before ++ [e] ++ rest)) ∧
  (∀ e2 i,
     validate_entry e = true → validate_entry e2 = true →
     str_id e = Some i → str_id e2 = Some i →
     validate_entries [e; e2] = ([e], ["Duplicate entry ID: " +:+ i])).
Proof.
  split_and!.
  - apply validate_entry_spec.
  - apply accepts_iff.
  - destruct (accepts_or_rejects before e) as [[? _]|[? _]]; auto.
  - intros [Hacc Hrej].
    destruct (accepts_or_rejects before e) as [[_ Herr]|[_ Hnacc]]; [|done].
    destruct Hrej as (msg & Hmsg). rewrite Hmsg in Herr. simpl in Herr.
    apply (f_equal length) in Herr. rewrite length_app in Herr. simpl in Herr. lia.
  - intros rest. split.
    + rewrite (app_assoc before [e] rest). apply valid_prefix.
    + apply validate_entries_total.
  - intros e2 i. apply validate_entries_pair.
Qed.

Lemma validate_entries_accepts_witness :
  validate_entries [record_1; record_1_later] =
    ([record_1], ["Duplicate entry ID: 1"]).
Proof.
  destruct (validate_entries_accepts [] record_1) as (_ & _ & _ & _ & _ & Hpair).
  apply (Hpair record_1_later "1"); reflexivity.
Defined.

(** A complete record is accepted although an earlier, incomplete record
    of the batch carries its id. *)
Lemma earlier_invalid_id_does_not_reject :
  validate_entries [stub_1; record_1] =
    ([record_1], ["Invalid entry structure: 1"]) ∧
  ¬ (accepts [stub_1] record_1 ↔
       well_formed record_1 ∧
       ∀ e', e' ∈ [stub_1] → e' !! "id" ≠ record_1 !! "id").
Proof.
  split; [reflexivity|].
  intros [Hclaim _].
  assert (Hacc : accepts [stub_1] record_1) by reflexivity.
  destruct (Hclaim Hacc) as [_ Hfresh].
  apply (Hfresh stub_1); [set_solver|reflexivity].
Qed.

(** ** The content-aware diff *)

Lemma old_map_of_lookup old_data i :
  DataManager.old_map_of old_data !! i = previous_record old_data i.
Proof.
  unfold DataManager.old_map_of, previous_record.
  induction old_data as [|e old_data IH] using rev_ind; [done|].
  rewrite foldl_snoc, filter_app, filter_cons, filter_nil.
  destruct (decide (DataManager.id e = i)) as [->|Hne].
  - by rewrite lookup_insert_eq, last_snoc.
  - by rewrite lookup_insert_ne, app_nil_r.
Qed.

Lemma diff_step_app old_map diffs entry :
  DataManager.diff_step old_map diffs entry
  = diffs ++ DataManager.diff_step old_map [] entry.
Proof.
  unfold DataManager.diff_step.
  repeat case_match; by rewrite ?app_nil_r.
Qed.

Lemma diff_contributions old_data new_data :
  DataManager.diff old_data new_data = new_data ≫= contribution old_data.
Proof.
  unfold DataManager.diff, contribution.
  induction new_data as [|e new_data IH] using rev_ind; [done|].
  rewrite foldl_snoc, bind_app, diff_step_app, IH. simpl.
  by rewrite app_nil_r.
Qed.

Lemma startswith_slice s p :
  startswith s p = true → s = p +:+ slice_from (String.length p) s.
Proof.
  unfold startswith. revert s. induction p as [|c p IH]; intros s Hp; [done|].
  destruct s as [|c' s]; [done|]. simpl in Hp.
  destruct (ascii_dec c c') as [->|]; [|done].
  simpl. unfold String.app. simpl. f_equal. by apply IH.
Qed.

Lemma contribution_cases old_data entry :
  match previous_record old_data (DataManager.id entry) with
  | None =>
      contribution old_data entry =
        [DataManager.DiffEntry (DataManager.id entry) "new"
           (DataManager.content entry) (DataManager.timestamp entry)]
  | Some old_entry =>
      let suffix :=
        slice_from (String.length (DataManager.content old_entry))
          (DataManager.content entry) in
      contribution old_data entry =
        if decide (DataManager.content entry = DataManager.content old_entry)
        then []
        else if startswith (DataManager.content entry)
                  (DataManager.content old_entry)
        then if decide (strip suffix = EmptyString) then []
             else [DataManager.DiffEntry (DataManager.id entry) "appended"
                     suffix (DataManager.timestamp entry)]
        else [DataManager.DiffEntry (DataManager.id entry) "edited"
                (DataManager.content entry) (DataManager.timestamp entry)]
  end.
Proof.
  unfold contribution, DataManager.diff_step.
  rewrite old_map_of_lookup.
  destruct (previous_record old_data (DataManager.id entry)) as [old_entry|];
    [|done].
  simpl. repeat case_decide; repeat case_bool_decide; simpl; try done;
    by destruct (startswith _ _).
Qed.

(** Claim C3, as the code has it.  The result of [diff] is made of what
    each record of [new_data] contributes, in order.  A record whose
    content differs from that of the previous record with its id
    contributes: one [appended] entry carrying the untrimmed remainder of
    the content after the previous content, when the previous content is
    a prefix and that remainder is not blank; nothing, when the previous
    content is a prefix and the remainder is blank; one [edited] entry
    carrying the whole new content otherwise.  For "a storm hit" followed
    by "a storm hit. update: 5.8 magnitude" the entry is [appended] with
    ". update: 5.8 magnitude"; followed by "totally different text" it is
    [edited] with the whole text. *)
Theorem diff_classifies_changes (old_data new_data : list DataManager.Entry) :
  DataManager.diff old_data new_data = new_data ≫= contribution old_data ∧
  (∀ entry old_entry,
     previous_record old_data (DataManager.id entry) = Some old_entry →
     DataManager.content entry ≠ DataManager.content old_entry →
     let suffix :=
       slice_from (String.length (DataManager.content old_entry))
         (DataManager.content entry) in
     (startswith (DataManager.content entry) (DataManager.content old_entry)
        = true →
      DataManager.content entry = DataManager.content old_entry +:+ suffix ∧
      (strip suffix ≠ EmptyString →
       contribution old_data entry =
         [DataManager.DiffEntry (DataManager.id entry) "appended" suffix
            (DataManager.timestamp entry)]) ∧
      (strip suffix = EmptyString → contribution old_data entry = [])) ∧
     (startswith (DataManager.content entry) (DataManager.content old_entry)
        = false →
      contribution old_data entry =
        [DataManager.DiffEntry (DataManager.id entry) "edited"
           (DataManager.content entry) (DataManager.timestamp entry)])) ∧
  DataManager.diff [storm_old] [storm_appended] =
    [DataManager.DiffEntry "1" "appended" ". update: 5.8 magnitude" "12:10"] ∧
  DataManager.diff [storm_old] [storm_rewritten] =
    [DataManager.DiffEntry "1" "edited" "totally different text" "12:10"].
Proof.
  split_and!; [apply diff_contributions| |reflexivity..].
  intros entry old_entry Hprev Hne suffix.
  pose proof (contribution_cases old_data entry) as Hc.
  rewrite Hprev in Hc. cbv zeta in Hc. fold suffix in Hc.
  rewrite decide_False in Hc by done.
  split.
  - intros Hsw. rewrite Hsw in Hc. split_and!.
    + by apply startswith_slice.
    + intros Hs. by rewrite decide_False in Hc.
    + intros Hs. by rewrite decide_True in Hc.
  - intros Hsw. by rewrite Hsw in Hc.
Qed.

Lemma diff_classifies_changes_witness :
  contribution [storm_old] storm_appended =
    [DataManager.DiffEntry "1" "appended" ". update: 5.8 magnitude" "12:10"] ∧
  contribution [storm_old] storm_padded = [] ∧
  contribution [storm_old] storm_rewritten =
    [DataManager.DiffEntry "1" "edited" "totally different text" "12:10"].
Proof.
  destruct (diff_classifies_changes [storm_old] []) as (_ & Hcases & _).
  split_and!.
  - destruct (Hcases storm_appended storm_old) as [Happ _];
      [reflexivity|discriminate|].
    destruct Happ as (_ & Hsuffix & _); [reflexivity|].
    apply Hsuffix. vm_compute. discriminate.
  - destruct (Hcases storm_padded storm_old) as [Happ _];
      [reflexivity|discriminate|].
    destruct Happ as (_ & _ & Hblank); [reflexivity|].
    apply Hblank. reflexivity.
  - destruct (Hcases storm_rewritten storm_old) as [_ Hed];
      [reflexivity|discriminate|].
    apply Hed. reflexivity.
Defined.

(** The appended entry of the storm example does not carry the trimmed
    text "update: 5.8 magnitude", and a change that appends blanks only
    is not reported as edited. *)
Lemma appended_delta_is_untrimmed :
  ¬ (∃ d, d ∈ DataManager.diff [storm_old] [storm_appended] ∧
          DataManager.type_ d = "appended" ∧
          DataManager.d_content d = "update: 5.8 magnitude") ∧
  ¬ (∃ d, d ∈ DataManager.diff [storm_old] [storm_padded] ∧
          DataManager.type_ d = "edited").
Proof.
  split.
  - intros (d & Hd & _ & Hcontent).
    change (d ∈ [DataManager.DiffEntry "1" "appended"
                   ". update: 5.8 magnitude" "12:10"]) in Hd.
    apply list_elem_of_singleton in Hd. subst d. discriminate.
  - intros (d & Hd & _).
    change (d ∈ []) in Hd. by apply elem_of_nil in Hd.
Qed.

(** Claim C10.  Every entry of the result of [diff] has the type new,
    appended or edited, never deleted, and carries the id of a record of
    [new_data]; an id that [new_data] lacks has no entry, whatever
    [old_data] holds; a record whose content equals that of the previous
    record with its id contributes nothing, whatever its timestamp. *)
Theorem diff_never_deletes (old_data new_data : list DataManager.Entry) :
  (∀ d, d ∈ DataManager.diff old_data new_data →
     (DataManager.type_ d = "new" ∨ DataManager.type_ d = "appended" ∨
      DataManager.type_ d = "edited") ∧
     DataManager.type_ d ≠ "deleted" ∧
     ∃ entry, entry ∈ new_data ∧ DataManager.id entry = DataManager.d_id d) ∧
  (∀ i, (∀ entry, entry ∈ new_data → DataManager.id entry ≠ i) →
     ∀ d, d ∈ DataManager.diff old_data new_data → DataManager.d_id d ≠ i) ∧
  (∀ entry old_entry,
     previous_record old_data (DataManager.id entry) = Some old_entry →
     DataManager.content entry = DataManager.content old_entry →
     contribution old_data entry = []) ∧
  (∀ i,
     (∀ entry, entry ∈ new_data → DataManager.id entry = i →
        ∃ old_entry, previous_record old_data i = Some old_entry ∧
                     DataManager.content entry = DataManager.content old_entry) →
     ∀ d, d ∈ DataManager.diff old_data new_data → DataManager.d_id d ≠ i).
Proof.
  assert (Hsame : ∀ entry old_entry,
     previous_record old_data (DataManager.id entry) = Some old_entry →
     DataManager.content entry = DataManager.content old_entry →
     contribution old_data entry = []).
  { intros entry old_entry Hprev Heq.
    pose proof (contribution_cases old_data entry) as Hc.
    rewrite Hprev in Hc. cbv zeta in Hc. by rewrite decide_True in Hc. }
  assert (Hfrom : ∀ d, d ∈ DataManager.diff old_data new_data →
     ∃ entry, entry ∈ new_data ∧ d ∈ contribution old_data entry ∧
       DataManager.id entry = DataManager.d_id d ∧
       (DataManager.type_ d = "new" ∨ DataManager.type_ d = "appended" ∨
        DataManager.type_ d = "edited")).
  { intros d. rewrite diff_contributions, list_elem_of_bind.
    intros (entry & Hd & Hentry). exists entry. split; [done|]. split; [done|].
    pose proof (contribution_cases old_data entry) as Hc.
    destruct (previous_record old_data (DataManager.id entry)) as [old_entry|].
    - cbv zeta in Hc. rewrite Hc in Hd.
      repeat case_decide; try (by apply elem_of_nil in Hd);
        destruct (startswith _ _); try (by apply elem_of_nil in Hd);
        apply list_elem_of_singleton in Hd; subst d; simpl; auto.
    - rewrite Hc in Hd. apply list_elem_of_singleton in Hd. subst d. simpl. auto. }
  split_and!.
  - intros d (entry & Hin & _ & Hid & Hty)%Hfrom. split_and!; [done| |eauto].
    intros Hdel. destruct Hty as [H|[H|H]]; rewrite H in Hdel; discriminate.
  - intros i Habsent d (entry & Hin & _ & Hid & _)%Hfrom.
    rewrite <-Hid. by apply Habsent.
  - exact Hsame.
  - intros i Hall d (entry & Hin & Hd & Hid & _)%Hfrom Hi.
    destruct (Hall entry Hin) as (old_entry & Hprev & Heq); [congruence|].
    rewrite (Hsame entry old_entry) in Hd; [|congruence|done].
    by apply elem_of_nil in Hd.
Qed.

Lemma diff_never_deletes_witness :
  DataManager.diff [storm_old] [] = [] ∧
  contribution [storm_old] storm_retimed = [].
Proof.
  destruct (diff_never_deletes [storm_old] [storm_retimed]) as (_ & _ & Hsame & _).
  split; [reflexivity|].
  apply (Hsame storm_retimed storm_old); reflexivity.
Defined.

(** ** Page targets *)

(** Claim C8, as the code has it.  For a page count N of at least 1,
    [build_page_urls] returns N targets; for N = 1 the bare base address;
    for N of 2 or more the target of every page from 1 to N, page 1
    included, is the base address followed by [?p=] and the page
    number. *)
Theorem build_page_urls_targets (base_url : string) (page_count : Z) :
  (1 ≤ page_count)%Z →
  length (build_page_urls base_url page_count) = Z.to_nat page_count ∧
  (page_count = 1%Z → build_page_urls base_url page_count = [base_url]) ∧
  ((2 ≤ page_count)%Z →
   ∀ page : Z, (1 ≤ page ≤ page_count)%Z →
     build_page_urls base_url page_count !! Z.to_nat (page - 1)
     = Some (base_url +:+ "?p=" +:+ pretty page)).
Proof.
  intros Hn. unfold build_page_urls. split_and!.
  - destruct (Z.eqb_spec page_count 1) as [->|Hne]; [done|].
    by rewrite length_fmap, length_seqZ.
  - intros ->. done.
  - intros H2 page Hpage.
    destruct (Z.eqb_spec page_count 1) as [->|Hne]; [lia|].
    rewrite list_lookup_fmap.
    rewrite (lookup_seqZ_lt 1 page_count (Z.to_nat (page - 1))) by lia.
    replace (1 + Z.of_nat (Z.to_nat (page - 1)))%Z with page by lia. done.
Qed.

Lemma build_page_urls_targets_witness :
  build_page_urls "https://eksisozluk.com/t--1" 3 =
    [ "https://eksisozluk.com/t--1?p=1";
      "https://eksisozluk.com/t--1?p=2";
      "https://eksisozluk.com/t--1?p=3" ] ∧
  length (build_page_urls "https://eksisozluk.com/t--1" 3) = 3.
Proof.
  split; [reflexivity|].
  apply (build_page_urls_targets "https://eksisozluk.com/t--1" 3). lia.
Defined.

(** The first target of a thread of two pages is not the bare base
    address. *)
Lemma first_page_carries_parameter :
  build_page_urls "https://eksisozluk.com/t--1" 2 !! 0
    = Some "https://eksisozluk.com/t--1?p=1" ∧
  build_page_urls "https://eksisozluk.com/t--1" 2 !! 0
    ≠ Some "https://eksisozluk.com/t--1".
Proof. split; [reflexivity|discriminate]. Qed.

(** ** Fetching with retries *)

Lemma fetch_loop_failing net url max_retries (m : nat) (a : Z) :
  (∀ attempt, net attempt = RequestException) →
  (a + Z.of_nat m = max_retries)%Z →
  (fetch_loop net url max_retries (seqZ a (Z.of_nat m))).1 = None ∧
  requests (fetch_loop net url max_retries (seqZ a (Z.of_nat m))).2
    = replicate m url ∧
  delays (fetch_loop net url max_retries (seqZ a (Z.of_nat m))).2
    = (λ k, RETRY_BACKOFF_BASE ^ k)%Z <$> seqZ a (Z.of_nat m - 1).
Proof.
  intros Hnet. revert a. induction m as [|m IH]; intros a Ha.
  { by rewrite seqZ_nil by lia. }
  rewrite seqZ_cons by lia. cbn [fetch_loop]. rewrite Hnet.
  replace (Z.pred (Z.of_nat (S m))) with (Z.of_nat m) by lia.
  destruct (Z.ltb_spec a (max_retries - 1)) as [Hlt|Hge].
  - destruct (IH (Z.succ a)) as (Hres & Hreq & Hdel); [lia|].
    destruct (fetch_loop net url max_retries (seqZ (Z.succ a) (Z.of_nat m)))
      as [r tr]. simpl in *. split_and!; [done|by rewrite Hreq|].
    rewrite Hdel. rewrite (seqZ_cons a (Z.of_nat (S m) - 1)) by lia.
    rewrite fmap_cons. do 3 f_equal. lia.
  - assert (m = 0) as -> by lia. simpl. split_and!; try done.
Qed.

Lemma fetch_loop_bounded net url max_retries attempts :
  (length (requests (fetch_loop net url max_retries attempts).2)
   ≤ length attempts)%nat.
Proof.
  induction attempts as [|a attempts IH]; [done|].
  cbn [fetch_loop]. destruct (net a); [simpl; lia|].
  destruct (a <? max_retries - 1)%Z; [|simpl; lia].
  destruct (fetch_loop net url max_retries attempts) as [r tr].
  simpl in *. lia.
Qed.

(** Claim C9.  When every request fails with a [RequestException],
    [fetch_html_with_retry] returns [None] after exactly [max_retries]
    requests, pausing between two requests for 1, 2, 4, ... seconds, each
    pause twice the one before; with the default bound that is three
    requests and pauses of 1 and 2 seconds.  Whatever the network
    answers, no more than [max_retries] requests are made. *)
Theorem fetch_exhausts_retries (net : Z → response) (url : string)
    (max_retries : Z) :
  (∀ attempt, net attempt = RequestException) →
  (fetch_html_with_retry net url max_retries).1 = None ∧
  requests (fetch_html_with_retry net url max_retries).2
    = replicate (Z.to_nat max_retries) url ∧
  delays (fetch_html_with_retry net url max_retries).2
    = (λ k, 2 ^ k)%Z <$> seqZ 0 (max_retries - 1) ∧
  (∀ k d d',
     delays (fetch_html_with_retry net url max_retries).2 !! k = Some d →
     delays (fetch_html_with_retry net url max_retries).2 !! S k = Some d' →
     d' = (2 * d)%Z) ∧
  (max_retries = MAX_RETRIES →
   requests (fetch_html_with_retry net url max_retries).2 = [url; url; url] ∧
   delays (fetch_html_with_retry net url max_retries).2 = [1; 2]%Z) ∧
  (∀ net' : Z → response,
     (length (requests (fetch_html_with_retry net' url max_retries).2)
      ≤ Z.to_nat max_retries)%nat).
Proof.
  intros Hnet. unfold fetch_html_with_retry.
  assert (Hmain :
    (fetch_loop net url max_retries (seqZ 0 max_retries)).1 = None ∧
    requests (fetch_loop net url max_retries (seqZ 0 max_retries)).2
      = replicate (Z.to_nat max_retries) url ∧
    delays (fetch_loop net url max_retries (seqZ 0 max_retries)).2
      = (λ k, 2 ^ k)%Z <$> seqZ 0 (max_retries - 1)).
  { destruct (Z.le_gt_cases max_retries 0) as [Hle|Hgt].
    - rewrite seqZ_nil by done. rewrite seqZ_nil by lia.
      by replace (Z.to_nat max_retries) with 0 by lia.
    - pose proof (fetch_loop_failing net url max_retries
                    (Z.to_nat max_retries) 0 Hnet) as H.
      rewrite Z2Nat.id in H by lia. apply H. lia. }
  destruct Hmain as (Hres & Hreq & Hdel). split_and!; try done.
  - intros k d d'. rewrite Hdel, !list_lookup_fmap.
    intros Hk Hk'.
    destruct (seqZ 0 (max_retries - 1) !! k) as [x|] eqn:Hx; [|done].
    destruct (seqZ 0 (max_retries - 1) !! S k) as [y|] eqn:Hy; [|done].
    apply lookup_seqZ in Hx as [-> _]. apply lookup_seqZ in Hy as [-> _].
    simpl in *. simplify_eq.
    replace (0 + Z.of_nat (S k))%Z with (Z.succ (0 + Z.of_nat k)) by lia.
    rewrite Z.pow_succ_r by lia. done.
  - intros ->. by rewrite Hreq, Hdel.
  - intros net'. etrans; [apply fetch_loop_bounded|]. by rewrite length_seqZ.
Qed.

Lemma fetch_exhausts_retries_witness :
  fetch_html_with_retry (λ _, RequestException) "https://eksisozluk.com/t--1"
    MAX_RETRIES
  = (None,
     [ Get "https://eksisozluk.com/t--1"; RetryNotice 1 1; Sleep 1;
       Get "https://eksisozluk.com/t--1"; RetryNotice 2 2; Sleep 2;
       Get "https://eksisozluk.com/t--1"; FailedNotice ]) ∧
  (fetch_html_with_retry (λ _, RequestException) "https://eksisozluk.com/t--1"
     MAX_RETRIES).1 = None.
Proof.
  split; [reflexivity|].
  apply (fetch_exhausts_retries (λ _, RequestException)
           "https://eksisozluk.com/t--1" MAX_RETRIES).
  intros attempt. reflexivity.
Defined.

(** ** Exit status *)

Lemma main_lock_refused env disk cfg lock :
  env_config env = Some cfg → given (lock_file cfg) = Some lock →
  env_lock_granted env = false →
  main env disk = (2%Z, disk).
Proof.
  intros Hcfg Hlock Hgranted. unfold main.
  rewrite Hcfg, Hlock, Hgranted.
  by rewrite bool_decide_eq_true_2 by eauto.
Qed.

(** Claim C7.  The exit status of four runs that track a state file: 0
    for a complete run, 2 for a run with a failed page, 2 as well for a
    run refused because the lock is held, 1 for a run that scraped
    nothing.  The partial run saved its state; the refused run left the
    state file and its backups as they were. *)
Theorem exit_status_of_runs :
  (main run_success ∅).1 = 0%Z ∧
  (main run_partial ∅).1 = 2%Z ∧
  (main run_already_running ∅).1 = 2%Z ∧
  (main run_no_data ∅).1 = 1%Z ∧
  (main run_partial ∅).2 !! "state.json" =
    Some (Json (DList (IDict <$> scenario_current))) ∧
  (main run_already_running ∅).2 = ∅.
Proof. by vm_compute. Qed.

(** ** Paths of the state store *)

Lemma string_app_length s t :
  String.length (s +:+ t) = String.length s + String.length t.
Proof. induction s as [|c s IH]; simpl; [done|]. by rewrite IH. Qed.

Lemma string_app_ne_self s t : t ≠ EmptyString → s +:+ t ≠ s.
Proof.
  intros Ht Heq. apply (f_equal String.length) in Heq.
  rewrite string_app_length in Heq. destruct t; [done|]. simpl in Heq. lia.
Qed.

Lemma backup_path_ne_state state_file i : backup_path state_file i ≠ state_file.
Proof. unfold backup_path. by apply string_app_ne_self. Qed.

Lemma temp_path_ne_state state_file pid : temp_path state_file pid ≠ state_file.
Proof. unfold temp_path. by apply string_app_ne_self. Qed.

Lemma backup_path_inj state_file i j :
  backup_path state_file i = backup_path state_file j → i = j.
Proof.
  unfold backup_path. intros Heq.
  apply (inj (String.app state_file)) in Heq.
  apply (inj (String.app ".backup.")) in Heq.
  by apply (inj pretty) in Heq.
Qed.

Lemma temp_path_inj state_file pid pid' :
  temp_path state_file pid = temp_path state_file pid' → pid = pid'.
Proof.
  unfold temp_path. intros Heq.
  apply (inj (String.app state_file)) in Heq.
  apply (inj (String.app ".tmp.")) in Heq.
  by apply (inj pretty) in Heq.
Qed.

Lemma temp_path_ne_backup state_file pid i :
  temp_path state_file pid ≠ backup_path state_file i.
Proof.
  unfold temp_path, backup_path. intros Heq.
  apply (inj (String.app state_file)) in Heq. discriminate.
Qed.

(** ** Rotation of the backups *)

Lemma shifted_S state_file n disk :
  shifted state_file (S n) disk
  = shifted state_file n (rotate_step state_file disk (S n)).
Proof.
  unfold shifted. rewrite seq_S, reverse_app, reverse_singleton. done.
Qed.

Lemma rotate_step_lookup state_file disk i p :
  rotate_step state_file disk i !! p =
    if decide (p = backup_path state_file (i + 1)) then
      match disk !! backup_path state_file i with
      | Some c => Some c
      | None => disk !! p
      end
    else if decide (p = backup_path state_file i) then None
    else disk !! p.
Proof.
  unfold rotate_step, rename, path_exists.
  destruct (disk !! backup_path state_file i) as [c|] eqn:Hi.
  - rewrite bool_decide_eq_true_2 by eauto.
    destruct (decide (p = backup_path state_file (i + 1))) as [->|Hne].
    + by rewrite lookup_insert_eq.
    + rewrite lookup_insert_ne by done.
      destruct (decide (p = backup_path state_file i)) as [->|Hne'].
      * by rewrite lookup_delete_eq.
      * by rewrite lookup_delete_ne.
  - rewrite bool_decide_eq_false_2 by (by intros [? ?]).
    destruct (decide (p = backup_path state_file (i + 1))) as [->|Hne]; [done|].
    destruct (decide (p = backup_path state_file i)) as [->|Hne']; done.
Qed.

Lemma shifted_frame state_file n disk p :
  (∀ k, (1 ≤ k ≤ n + 1)%nat → p ≠ backup_path state_file k) →
  shifted state_file n disk !! p = disk !! p.
Proof.
  revert disk. induction n as [|n IH]; intros disk Hp; [done|].
  rewrite shifted_S, IH by (intros k Hk; apply Hp; lia).
  rewrite rotate_step_lookup.
  rewrite decide_False by (apply Hp; lia).
  rewrite decide_False by (apply Hp; lia). done.
Qed.

Lemma shifted_first state_file n disk :
  (1 ≤ n)%nat → shifted state_file n disk !! backup_path state_file 1 = None.
Proof.
  revert disk. induction n as [|n IH]; intros disk Hn; [lia|].
  rewrite shifted_S. destruct n as [|n].
  - unfold shifted. simpl. rewrite rotate_step_lookup.
    rewrite decide_False by (intros ?%backup_path_inj; lia).
    by rewrite decide_True.
  - apply IH. lia.
Qed.

Lemma shifted_moved state_file n disk k :
  (1 ≤ k ≤ n)%nat →
  shifted state_file n disk !! backup_path state_file (k + 1) =
    match disk !! backup_path state_file k with
    | Some c => Some c
    | None =>
        if decide (k = n) then disk !! backup_path state_file (n + 1) else None
    end.
Proof.
  revert disk. induction n as [|n IH]; intros disk Hk; [lia|].
  rewrite shifted_S. destruct (decide (k = S n)) as [->|Hne].
  - rewrite shifted_frame.
    + rewrite rotate_step_lookup. rewrite decide_True by done.
      by destruct (disk !! backup_path state_file (S n)).
    + intros j Hj ?%backup_path_inj. lia.
  - rewrite IH by lia. rewrite !rotate_step_lookup.
    rewrite (decide_False (P := backup_path state_file k = _))
      by (intros ?%backup_path_inj; lia).
    rewrite (decide_False (P := backup_path state_file k = _))
      by (intros ?%backup_path_inj; lia).
    destruct (disk !! backup_path state_file k) as [c|]; [done|].
    destruct (decide (k = n)) as [->|Hkn]; [|done].
    rewrite decide_False by (intros ?%backup_path_inj; lia).
    replace (n + 1) with (S n) by lia. by rewrite decide_True.
Qed.

Lemma rotate_backups_present state_file disk c :
  disk !! state_file = Some c →
  rotate_backups state_file disk
  = <[backup_path state_file 1 := c]>
      (shifted state_file (STATE_BACKUP_COUNT - 1) disk).
Proof.
  intros Hc. unfold rotate_backups.
  assert (path_exists disk state_file = true) as ->
    by (apply bool_decide_eq_true; eauto).
  cbn [negb].
  change (foldl (rotate_step state_file) disk
            (reverse (seq 1 (STATE_BACKUP_COUNT - 1))))
    with (shifted state_file (STATE_BACKUP_COUNT - 1) disk).
  unfold copy2. rewrite shifted_frame; [by rewrite Hc|].
  intros k _ Heq. symmetry in Heq. by apply backup_path_ne_state in Heq.
Qed.

Lemma rotate_backups_first state_file disk :
  is_Some (disk !! state_file) →
  rotate_backups state_file disk !! backup_path state_file 1
  = disk !! state_file.
Proof.
  intros [c Hc]. rewrite (rotate_backups_present _ _ c Hc).
  by rewrite lookup_insert_eq.
Qed.

Lemma rotate_backups_moved state_file disk k :
  is_Some (disk !! state_file) →
  (1 ≤ k < STATE_BACKUP_COUNT)%nat →
  rotate_backups state_file disk !! backup_path state_file (k + 1) =
    match disk !! backup_path state_file k with
    | Some c => Some c
    | None =>
        if decide (k = STATE_BACKUP_COUNT - 1)
        then disk !! backup_path state_file STATE_BACKUP_COUNT
        else None
    end.
Proof.
  intros [c Hc] Hk. rewrite (rotate_backups_present _ _ c Hc).
  rewrite lookup_insert_ne by (intros ?%backup_path_inj; lia).
  rewrite shifted_moved by (unfold STATE_BACKUP_COUNT in *; lia). done.
Qed.

Lemma rotate_backups_frame state_file disk p :
  (∀ k, (1 ≤ k ≤ STATE_BACKUP_COUNT)%nat → p ≠ backup_path state_file k) →
  rotate_backups state_file disk !! p = disk !! p.
Proof.
  intros Hpk. destruct (disk !! state_file) as [c|] eqn:Hc.
  - rewrite (rotate_backups_present _ _ c Hc).
    rewrite lookup_insert_ne by (intros Heq; apply (Hpk 1);
      [unfold STATE_BACKUP_COUNT; lia|done]).
    apply shifted_frame. intros k Hk. apply Hpk.
    unfold STATE_BACKUP_COUNT in *. lia.
  - unfold rotate_backups, path_exists.
    rewrite bool_decide_eq_false_2; [done|]. rewrite Hc. by intros [? ?].
Qed.

(** X1.  When the state file exists, [rotate_backups] leaves it as it
    is and copies it to backup 1; each backup [k] below the retention
    count that exists becomes backup [k + 1]; where backup [k] is
    missing, backup [k + 1] ends up missing too, except the last one,
    which then keeps its old content; no other path changes. *)
Theorem rotate_backups_shifts (state_file : string) (disk : fs) :
  is_Some (disk !! state_file) →
  rotate_backups state_file disk !! state_file = disk !! state_file ∧
  rotate_backups state_file disk !! backup_path state_file 1
    = disk !! state_file ∧
  (∀ k, (1 ≤ k < STATE_BACKUP_COUNT)%nat →
     rotate_backups state_file disk !! backup_path state_file (k + 1) =
       match disk !! backup_path state_file k with
       | Some c => Some c
       | None =>
           if decide (k = STATE_BACKUP_COUNT - 1)
           then disk !! backup_path state_file STATE_BACKUP_COUNT
           else None
       end) ∧
  (∀ p,
     (∀ k, (1 ≤ k ≤ STATE_BACKUP_COUNT)%nat → p ≠ backup_path state_file k) →
     rotate_backups state_file disk !! p = disk !! p).
Proof.
  intros Hsome. split_and!.
  - apply rotate_backups_frame. intros k _ Heq. symmetry in Heq.
    by apply backup_path_ne_state in Heq.
  - by apply rotate_backups_first.
  - intros k Hk. by apply rotate_backups_moved.
  - apply rotate_backups_frame.
Qed.

Lemma rotate_backups_absent state_file disk :
  disk !! state_file = None → rotate_backups state_file disk = disk.
Proof.
  intros Hnone. unfold rotate_backups, path_exists.
  rewrite bool_decide_eq_false_2; [done|]. rewrite Hnone. by intros [? ?].
Qed.

Lemma rotate_backups_shifts_witness :
  rotate_backups "state.json" disk_gap !! "state.json.backup.1"
    = Some (Garbage "primary") ∧
  rotate_backups "state.json" disk_gap !! "state.json.backup.3"
    = Some (Garbage "second") ∧
  rotate_backups "state.json" disk_gap !! "state.json.backup.4" = None ∧
  rotate_backups "state.json" disk_gap !! "state.json.backup.5"
    = Some (Garbage "fourth").
Proof.
  destruct (rotate_backups_shifts "state.json" disk_gap) as (_ & H1 & Hk & _).
  - vm_compute. eauto.
  - split_and!.
    + exact H1.
    + apply (Hk 2). vm_compute. lia.
    + apply (Hk 3). vm_compute. lia.
    + apply (Hk 4). vm_compute. lia.
Defined.

(** ** What a save leaves on the disk *)

Lemma save_state_atomic_disk entries state_file pid disk :
  (validate_entries entries).1 ≠ [] →
  (save_state_atomic entries state_file pid disk).1.1 =
    <[state_file := Json (DList (IDict <$> (validate_entries entries).1))]>
      (delete (temp_path state_file pid)
         (<[temp_path state_file pid :=
              Json (DList (IDict <$> (validate_entries entries).1))]>
            (rotate_backups state_file disk))).
Proof.
  intros Hne. unfold save_state_atomic.
  destruct (validate_entries entries) as [valid errs]. simpl in *.
  destruct valid as [|e valid]; [done|]. simpl.
  unfold rename. by rewrite lookup_insert_eq.
Qed.

Lemma save_state_atomic_other entries state_file pid disk p :
  (validate_entries entries).1 ≠ [] →
  p ≠ state_file → p ≠ temp_path state_file pid →
  (save_state_atomic entries state_file pid disk).1.1 !! p
  = rotate_backups state_file disk !! p.
Proof.
  intros Hne Hp Hpt. rewrite save_state_atomic_disk by done.
  rewrite lookup_insert_ne by done.
  rewrite lookup_delete_ne by done. by rewrite lookup_insert_ne.
Qed.

Lemma save_state_atomic_backup_1 entries state_file pid disk :
  (validate_entries entries).1 ≠ [] →
  is_Some (disk !! state_file) →
  (save_state_atomic entries state_file pid disk).1.1
    !! backup_path state_file 1 = disk !! state_file.
Proof.
  intros Hne Hsome. rewrite save_state_atomic_other.
  - by apply rotate_backups_first.
  - done.
  - apply backup_path_ne_state.
  - intros Heq. symmetry in Heq. by apply temp_path_ne_backup in Heq.
Qed.

(** X2.  A save that accepts at least one record leaves the accepted
    records in the state file and no temporary file of its own; the
    previous state file, when there was one, is backup 1; on a first
    save no backup changes; the temporary files of other processes and
    every path that is neither the state file, one of its backups nor
    the temporary file are as before. *)
Theorem save_state_atomic_frame (entries : list entry) (state_file : string)
    (pid : nat) (disk : fs) :
  (validate_entries entries).1 ≠ [] →
  (save_state_atomic entries state_file pid disk).1.1 !! state_file
    = Some (Json (DList (IDict <$> (validate_entries entries).1))) ∧
  (save_state_atomic entries state_file pid disk).1.1
    !! temp_path state_file pid = None ∧
  (is_Some (disk !! state_file) →
   (save_state_atomic entries state_file pid disk).1.1
     !! backup_path state_file 1 = disk !! state_file) ∧
  (disk !! state_file = None →
   ∀ k, (save_state_atomic entries state_file pid disk).1.1
          !! backup_path state_file k = disk !! backup_path state_file k) ∧
  (∀ pid', pid' ≠ pid →
     (save_state_atomic entries state_file pid disk).1.1
       !! temp_path state_file pid' = disk !! temp_path state_file pid') ∧
  (∀ p, p ≠ state_file → p ≠ temp_path state_file pid →
     (∀ k, (1 ≤ k ≤ STATE_BACKUP_COUNT)%nat → p ≠ backup_path state_file k) →
     (save_state_atomic entries state_file pid disk).1.1 !! p = disk !! p).
Proof.
  intros Hne. split_and!.
  - rewrite save_state_atomic_disk by done. by rewrite lookup_insert_eq.
  - rewrite save_state_atomic_disk by done.
    rewrite lookup_insert_ne by (symmetry; apply temp_path_ne_state).
    by rewrite lookup_delete_eq.
  - by apply save_state_atomic_backup_1.
  - intros Hnone k. rewrite save_state_atomic_other.
    + by rewrite rotate_backups_absent.
    + done.
    + apply backup_path_ne_state.
    + intros Heq. symmetry in Heq. by apply temp_path_ne_backup in Heq.
  - intros pid' Hpid. rewrite save_state_atomic_other.
    + apply rotate_backups_frame. intros k _. apply temp_path_ne_backup.
    + done.
    + apply temp_path_ne_state.
    + intros ?%temp_path_inj. done.
  - intros p Hp Hpt Hpk. rewrite save_state_atomic_other by done.
    by apply rotate_backups_frame.
Qed.

Lemma save_state_atomic_frame_witness :
  (save_state_atomic scenario_current "state.json" 42 disk_gap).1.1
    !! "state.json.backup.1" = Some (Garbage "primary") ∧
  (save_state_atomic scenario_current "state.json" 42 disk_gap).1.1
    !! "state.json.tmp.42" = None.
Proof.
  destruct (save_state_atomic_frame scenario_current "state.json" 42 disk_gap)
    as (_ & Htmp & Hb1 & _).
  - vm_compute. discriminate.
  - split; [|exact Htmp]. apply Hb1. vm_compute. eauto.
Defined.

(** ** Recovery of the previous state *)

Lemma load_state_backup_1 disk state_file raw items st :
  disk !! state_file = Some (Garbage raw) →
  disk !! backup_path state_file 1 = Some (Json (DList items)) →
  valid_by_id items = Some st →
  load_state disk state_file
  = (st, [ErrLoadingState; AttemptBackup 1; LoadedBackup 1]).
Proof.
  intros Hp Hb Hst. unfold load_state, path_exists.
  rewrite bool_decide_eq_true_2 by (rewrite Hp; eauto). simpl. rewrite Hp.
  unfold load_state_from_backup. simpl. by rewrite Hb, Hst.
Qed.

(** X3.  When the state file held a list that loads as [st], a save
    followed by the corruption of the state file makes [load_state]
    return [st] again, from backup 1. *)
Theorem previous_state_recovered (entries : list entry) (state_file : string)
    (pid : nat) (disk : fs) (items : list item) (st : state) (raw : string) :
  disk !! state_file = Some (Json (DList items)) →
  valid_by_id items = Some st →
  (validate_entries entries).1 ≠ [] →
  load_state disk state_file = (st, []) ∧
  load_state
    (<[state_file := Garbage raw]>
       (save_state_atomic entries state_file pid disk).1.1) state_file
  = (st, [ErrLoadingState; AttemptBackup 1; LoadedBackup 1]).
Proof.
  intros Hfile Hst Hne. split.
  - unfold load_state, path_exists.
    rewrite bool_decide_eq_true_2 by (rewrite Hfile; eauto). simpl.
    by rewrite Hfile, Hst.
  - apply (load_state_backup_1 _ _ raw items).
    + by rewrite lookup_insert_eq.
    + rewrite lookup_insert_ne by (symmetry; apply backup_path_ne_state).
      rewrite save_state_atomic_backup_1 by (rewrite ?Hfile; eauto). done.
    + done.
Qed.

Lemma previous_state_recovered_witness :
  load_state
    (<["state.json" := Garbage "torn"]>
       (save_state_atomic scenario_current "state.json" 42
          {["state.json" := Json (DList [IDict record_1])]}).1.1)
    "state.json"
  = (state_1, [ErrLoadingState; AttemptBackup 1; LoadedBackup 1]).
Proof.
  apply (previous_state_recovered scenario_current "state.json" 42
           {["state.json" := Json (DList [IDict record_1])]}
           [IDict record_1] state_1 "torn").
  - reflexivity.
  - reflexivity.
  - vm_compute. discriminate.
Defined.

(** ** What loading returns *)

Lemma valid_by_id_well_keyed items st :
  valid_by_id items = Some st → well_keyed st.
Proof.
  intros Hst i e Hie.
  by destruct (valid_by_id_records items st Hst i e Hie) as (_ & ? & ?).
Qed.

Lemma well_keyed_empty : well_keyed ∅.
Proof. apply map_Forall_empty. Qed.

Lemma backup_loop_well_keyed disk state_file indices :
  well_keyed (backup_loop disk state_file indices).1.
Proof.
  induction indices as [|i indices IH]; [apply well_keyed_empty|].
  pose proof (backup_loop_cons disk state_file i indices) as H.
  destruct (try_backup disk state_file i) as [st|] eqn:Htry.
  - rewrite H. simpl. apply try_backup_usable in Htry as (items & _ & Hst).
    by eapply valid_by_id_well_keyed.
  - destruct H as [-> _]. done.
Qed.

Lemma load_state_well_keyed disk state_file :
  well_keyed (load_state disk state_file).1.
Proof.
  unfold load_state.
  destruct (path_exists disk state_file); simpl; [|apply well_keyed_empty].
  pose proof (backup_loop_well_keyed disk state_file (seq 1 STATE_BACKUP_COUNT))
    as Hb. fold (load_state_from_backup disk state_file) in Hb.
  destruct (disk !! state_file) as [[raw|[items|d|v]]|];
    try apply well_keyed_empty.
  - by destruct (load_state_from_backup disk state_file).
  - destruct (valid_by_id items) as [st|] eqn:Hst.
    + by eapply valid_by_id_well_keyed.
    + by destruct (load_state_from_backup disk state_file).
Qed.

Lemma validate_entries_all_valid entries :
  Forall (λ e, validate_entry e = true) (validate_entries entries).1.
Proof. by destruct (vloop_inv entries) as (_ & ? & _). Qed.

(** X4.  Whatever the disk holds, the state [load_state] returns has
    only valid records, each under its own id; the accepted records of a
    batch have distinct ids; so [compute_diff] of the two never raises,
    and its counts of new and edited records fit in the batch, those of
    deleted and edited records in the state. *)
Theorem diff_against_loaded_state (entries : list entry) (disk : fs)
    (state_file : string) :
  well_keyed (load_state disk state_file).1 ∧
  NoDup (omap str_id (validate_entries entries).1) ∧
  ∃ d, compute_diff (validate_entries entries).1
         (load_state disk state_file).1 = Some d ∧
       total_current (diff_summary d) = length (validate_entries entries).1 ∧
       total_previous (diff_summary d) = size (load_state disk state_file).1 ∧
       (new_count (diff_summary d) + edited_count (diff_summary d)
        ≤ total_current (diff_summary d))%nat ∧
       (deleted_count (diff_summary d) + edited_count (diff_summary d)
        ≤ total_previous (diff_summary d))%nat.
Proof.
  pose proof (load_state_well_keyed disk state_file) as Hprev.
  pose proof (validate_entries_all_valid entries) as Hcur.
  destruct (vloop_inv entries) as (_ & _ & _ & Hnd & _).
  rewrite validate_entries_vloop. simpl.
  rewrite validate_entries_vloop in Hcur. simpl in Hcur.
  set (valid := valid_entries (vloop entries)) in *.
  set (prev := (load_state disk state_file).1) in *.
  split; [done|]. split; [done|].
  destruct (compute_diff_exact valid prev Hcur Hprev)
    as (m & d & Hd & Hlook & Hdom & Hnew & Hdel & Hedids & _ & Hsum).
  exists d. split; [done|]. rewrite Hsum. simpl. split; [done|]. split; [done|].
  assert (Hsize : size (batch_ids valid) = length valid).
  { unfold batch_ids. rewrite size_list_to_set by done.
    clear -Hcur. induction Hcur as [|e l Hve _ IH]; [done|].
    simpl. destruct (validate_entry_str_id e Hve) as (i & -> & _).
    simpl. by f_equal. }
  assert (Hed : (length (diff_edited d)
                 ≤ size (batch_ids valid ∩ dom prev))%nat).
  { rewrite <-(length_fmap ed_id), Hedids. apply length_filter. }
  assert (Hn : length (diff_new d) = size (batch_ids valid ∖ dom prev)).
  { symmetry. eapply Forall2_length, Hnew. }
  assert (Hdl : length (diff_deleted d) = size (dom prev ∖ batch_ids valid)).
  { symmetry. eapply Forall2_length, Hdel. }
  rewrite Hn, Hdl, <-Hsize, <-(size_dom prev).
  split.
  - etrans; [apply Nat.add_le_mono_l, Hed|].
    rewrite <-size_union by set_solver.
    apply subseteq_size. set_solver.
  - etrans; [apply Nat.add_le_mono_l, Hed|].
    rewrite <-size_union by set_solver.
    apply subseteq_size. set_solver.
Qed.

(** ** Running twice on the same batch *)

Lemma load_after_save entries state_file pid disk :
  (validate_entries entries).1 ≠ [] →
  ∃ st, load_state (save_state_atomic entries state_file pid disk).1.1
          state_file = (st, []) ∧
        index_by_id (validate_entries entries).1 = Some st.
Proof.
  intros Hne.
  destruct (save_state_atomic_valid entries state_file pid disk Hne)
    as (disk' & log & Hsave & Hfile).
  rewrite Hsave. simpl.
  pose proof (validate_entries_all_valid entries) as Hval.
  destruct (index_by_id_Some (validate_entries entries).1) as (st & Hst & _).
  { eapply Forall_impl; [apply Hval|]. intros e He.
    destruct (validate_entry_str_id e He) as (i & -> & _). eauto. }
  exists st. split; [|done].
  unfold load_state, path_exists.
  rewrite bool_decide_eq_true_2 by (rewrite Hfile; eauto). simpl.
  by rewrite Hfile, valid_by_id_dicts, Hst.
Qed.

Lemma changed_same e : changed e e = false.
Proof.
  unfold changed. destruct (e !! "content"); [|done].
  destruct (e !! "timestamp"); [|done]. by rewrite !eqb_refl.
Qed.

(** X5.  Saving a batch and diffing the same batch against the state
    loaded back reports nothing new, edited or deleted. *)
Theorem unchanged_batch_reports_nothing (entries : list entry)
    (state_file : string) (pid : nat) (disk : fs) :
  (validate_entries entries).1 ≠ [] →
  ∃ d, compute_diff (validate_entries entries).1
         (load_state (save_state_atomic entries state_file pid disk).1.1
            state_file).1 = Some d ∧
       diff_new d = [] ∧ diff_edited d = [] ∧ diff_deleted d = [] ∧
       diff_summary d =
         Summary 0 0 0 (length (validate_entries entries).1)
           (length (validate_entries entries).1).
Proof.
  intros Hne.
  destruct (load_after_save entries state_file pid disk Hne) as (st & -> & Hst).
  simpl.
  pose proof (validate_entries_all_valid entries) as Hval.
  destruct (vloop_inv entries) as (_ & _ & _ & Hnd & _).
  rewrite validate_entries_vloop in *. simpl in *.
  set (valid := valid_entries (vloop entries)) in *.
  destruct (index_by_id_Some valid) as (st' & Hst' & Hlook').
  { eapply Forall_impl; [apply Hval|]. intros e He.
    destruct (validate_entry_str_id e He) as (i & -> & _). eauto. }
  assert (st' = st) as -> by congruence.
  assert (Hkeyed : well_keyed st).
  { intros i e. rewrite Hlook'. intros [Hin Hi]%current_record_Some.
    split; [|done]. by eapply Forall_forall in Hval. }
  destruct (compute_diff_exact valid st Hval Hkeyed)
    as (m & d & Hd & Hlook & Hdom & Hnew & Hdel & Hedids & _ & Hsum).
  assert (m = st) as ->.
  { apply map_eq. intros i. by rewrite Hlook, Hlook'. }
  rewrite <-Hdom in Hnew, Hdel, Hedids.
  rewrite difference_diag_L, elements_empty in Hnew, Hdel.
  apply Forall2_nil_inv_l in Hnew. apply Forall2_nil_inv_l in Hdel.
  assert (Hed : diff_edited d = []).
  { apply (fmap_nil_inv ed_id). rewrite Hedids.
    apply elem_of_nil_inv. intros i [Hch _]%list_elem_of_filter.
    unfold changed_at in Hch. destruct (st !! i); [|done].
    by rewrite changed_same in Hch. }
  exists d. split; [done|]. rewrite Hsum, Hnew, Hdel, Hed. simpl.
  split_and!; try done.
  assert (Hsize : size st = length valid).
  { rewrite <-size_dom, Hdom. unfold batch_ids.
    rewrite size_list_to_set by done.
    clear -Hval. induction Hval as [|e l Hve _ IH]; [done|].
    simpl. destruct (validate_entry_str_id e Hve) as (i & -> & _).
    simpl. by f_equal. }
  by rewrite Hsize.
Qed.

Lemma unchanged_batch_reports_nothing_witness :
  ∃ d, compute_diff scenario_current
         (load_state (save_state_atomic scenario_current "state.json" 42
                        disk_gap).1.1 "state.json").1 = Some d ∧
       diff_new d = [] ∧ diff_edited d = [] ∧ diff_deleted d = [].
Proof.
  destruct (unchanged_batch_reports_nothing scenario_current "state.json" 42
              disk_gap) as (d & Hd & Hnew & Hed & Hdel & _).
  - vm_compute. discriminate.
  - exists d. split; [exact Hd|]. split; [exact Hnew|]. split; [exact Hed|].
    exact Hdel.
Defined.

(** ** The accepted records as a whole *)

Lemma vloop_clean (l : list entry) :
  Forall (λ e, validate_entry e = true) l →
  NoDup (omap str_id l) →
  vloop l = VState l [] (list_to_set (omap str_id l)).
Proof.
  induction l as [|e l IH] using rev_ind; intros Hval Hnd; [done|].
  apply Forall_app in Hval as [Hval He]. rewrite Forall_singleton in He.
  destruct (validate_entry_str_id e He) as (i & Hi & _).
  rewrite omap_app in Hnd. simpl in Hnd. rewrite Hi in Hnd. simpl in Hnd.
  apply NoDup_app in Hnd as (Hnd & Hfresh & _).
  rewrite vloop_snoc, IH by done.
  rewrite (validate_step_valid _ e i He Hi). simpl.
  rewrite bool_decide_eq_false_2.
  - f_equal. rewrite omap_app. simpl. rewrite Hi. simpl.
    rewrite list_to_set_app_L. simpl. set_solver.
  - rewrite elem_of_list_to_set. intros Hin. apply (Hfresh i Hin). set_solver.
Qed.

Lemma valid_sublist entries :
  (validate_entries entries).1 `sublist_of` entries.
Proof.
  rewrite validate_entries_vloop. simpl.
  induction entries as [|e entries IH] using rev_ind; [done|].
  rewrite vloop_snoc.
  destruct (validate_step_cases (vloop entries) e)
    as [(-> & _)|((msg & ->) & _)]; simpl.
  - by apply sublist_app.
  - by apply sublist_inserts_r.
Qed.

(** X6.  The accepted records keep the order of the batch, are all
    structurally valid and have distinct ids; their ids are those of the
    structurally valid records of the batch; validating them again
    accepts them all and reports nothing. *)
Theorem validate_entries_result (entries : list entry) :
  (validate_entries entries).1 `sublist_of` entries ∧
  Forall (λ e, validate_entry e = true) (validate_entries entries).1 ∧
  NoDup (omap str_id (validate_entries entries).1) ∧
  (∀ i, i ∈ omap str_id (validate_entries entries).1 ↔
        ∃ e, e ∈ entries ∧ validate_entry e = true ∧ str_id e = Some i) ∧
  validate_entries (validate_entries entries).1
    = ((validate_entries entries).1, []).
Proof.
  destruct (vloop_inv entries) as (Hseen & Hval & Hset & Hnd & _).
  split_and!.
  - apply valid_sublist.
  - done.
  - done.
  - intros i. rewrite <-Hseen, Hset. by rewrite elem_of_list_to_set.
  - change (validate_entries entries).1 with (valid_entries (vloop entries)).
    rewrite validate_entries_vloop. by rewrite vloop_clean.
Qed.

(** ** The command line *)

Lemma parse_options_spec cfg rest :
  url (parse_options cfg rest) = url cfg ∧
  (lock_file cfg = (λ f, f +:+ ".lock") <$> state_file cfg →
   lock_file (parse_options cfg rest)
   = (λ f, f +:+ ".lock") <$> state_file (parse_options cfg rest)) ∧
  (∀ f, state_file (parse_options cfg rest) = Some f →
        state_file cfg = Some f ∨ option_given "--state" f rest) ∧
  (∀ f, output_file (parse_options cfg rest) = Some f →
        output_file cfg = Some f ∨ option_given "--output" f rest) ∧
  (diff_only (parse_options cfg rest) = true →
   diff_only cfg = true ∨ "--diff-only" ∈ rest).
Proof.
  assert (Hcons : ∀ name f a l, option_given name f l → option_given name f (a :: l)).
  { intros name f a l (before & after & ->). by exists (a :: before), after. }
  assert (Hcons2 : ∀ name f a b l,
            option_given name f l → option_given name f (a :: b :: l)).
  { intros name f a b l H. by do 2 apply Hcons. }
  revert cfg. induction rest as [rest IH] using (induction_ltof1 _ length).
  unfold ltof in IH. intros cfg.
  destruct rest as [|arg [|value rest]]; simpl.
  - split_and!; auto.
  - case_bool_decide; simpl; split_and!; auto. intros _. right. set_solver.
  - case_bool_decide as Ho; [|case_bool_decide as Hs; [|case_bool_decide as Hd]].
    + destruct (IH rest ltac:(simpl; lia)
                  (Config (url cfg) (Some value) (state_file cfg)
                     (diff_only cfg) (lock_file cfg)))
        as (Hu & Hl & Hst & Hout & Hdo). simpl in *. split_and!; auto.
      * intros f Hf. destruct (Hst f Hf); auto.
      * intros f Hf. destruct (Hout f Hf) as [[= <-]|?]; [|auto].
        right. subst arg. by exists [], rest.
      * intros Hf. destruct (Hdo Hf); [auto|]. right. set_solver.
    + destruct (IH rest ltac:(simpl; lia)
                  (Config (url cfg) (output_file cfg) (Some value)
                     (diff_only cfg) (Some (value +:+ ".lock"))))
        as (Hu & Hl & Hst & Hout & Hdo). simpl in *. split_and!; auto.
      * intros f Hf. destruct (Hst f Hf) as [[= <-]|?]; [|auto].
        right. subst arg. by exists [], rest.
      * intros f Hf. destruct (Hout f Hf); auto.
      * intros Hf. destruct (Hdo Hf); [auto|]. right. set_solver.
    + destruct (IH (value :: rest) ltac:(simpl; lia)
                  (Config (url cfg) (output_file cfg) (state_file cfg) true
                     (lock_file cfg)))
        as (Hu & Hl & Hst & Hout & Hdo). simpl in *. split_and!; auto.
      * intros f Hf. destruct (Hst f Hf); auto.
      * intros f Hf. destruct (Hout f Hf); auto.
      * intros _. right. set_solver.
    + destruct (IH (value :: rest) ltac:(simpl; lia) cfg)
        as (Hu & Hl & Hst & Hout & Hdo). split_and!; auto.
      * intros f Hf. destruct (Hst f Hf); auto.
      * intros f Hf. destruct (Hout f Hf); auto.
      * intros Hf. destruct (Hdo Hf); [auto|]. right. set_solver.
Qed.

(** X7.  [parse_args] gives up exactly when fewer than two arguments
    are given.  Otherwise the address is the second argument, the lock
    file is the state file followed by [.lock] and is set exactly when
    the state file is, and a state file, an output file or the diff-only
    flag in the result was given on the command line. *)
Theorem parse_args_config (args : list string) :
  (parse_args args = None ↔ (length args < 2)%nat) ∧
  (∀ cfg, parse_args args = Some cfg →
     Some (url cfg) = args !! 1 ∧
     lock_file cfg = (λ f, f +:+ ".lock") <$> state_file cfg ∧
     (∀ f, state_file cfg = Some f → option_given "--state" f (drop 2 args)) ∧
     (∀ f, output_file cfg = Some f → option_given "--output" f (drop 2 args)) ∧
     (diff_only cfg = true → "--diff-only" ∈ drop 2 args)).
Proof.
  unfold parse_args. destruct args as [|prog [|u rest]]; simpl.
  - split; [split; [lia|done]|done].
  - split; [split; [lia|done]|done].
  - split; [split; [done|lia]|]. intros cfg [= <-].
    destruct (parse_options_spec (Config u None None false None) rest)
      as (Hu & Hl & Hst & Hout & Hdo). simpl in *.
    split_and!.
    + by rewrite Hu.
    + by apply Hl.
    + intros f Hf. by destruct (Hst f Hf).
    + intros f Hf. by destruct (Hout f Hf).
    + intros Hf. by destruct (Hdo Hf).
Qed.

Lemma parse_args_config_witness :
  parse_args ["scraper.py"; "https://eksisozluk.com/t--1"; "--state";
              "state.json"; "--diff-only"; "--output"]
  = Some (Config "https://eksisozluk.com/t--1" None (Some "state.json") true
            (Some "state.json.lock")) ∧
  option_given "--state" "state.json"
    ["--state"; "state.json"; "--diff-only"; "--output"].
Proof.
  split; [reflexivity|].
  destruct (parse_args_config
              ["scraper.py"; "https://eksisozluk.com/t--1"; "--state";
               "state.json"; "--diff-only"; "--output"]) as [_ H].
  destruct (H (Config "https://eksisozluk.com/t--1" None (Some "state.json")
                 true (Some "state.json.lock")) eq_refl) as (_ & _ & Hst & _).
  apply Hst. reflexivity.
Defined.

(** ** A fetch that succeeds *)

Lemma fetch_loop_succeeds net url max_retries (m : nat) (a k : Z) body :
  (a + Z.of_nat m = max_retries)%Z → (a ≤ k < max_retries)%Z →
  (∀ attempt, (a ≤ attempt < k)%Z → net attempt = RequestException) →
  net k = Text body →
  (fetch_loop net url max_retries (seqZ a (Z.of_nat m))).1 = Some body ∧
  requests (fetch_loop net url max_retries (seqZ a (Z.of_nat m))).2
    = replicate (Z.to_nat (k - a + 1)) url ∧
  delays (fetch_loop net url max_retries (seqZ a (Z.of_nat m))).2
    = (λ j, RETRY_BACKOFF_BASE ^ j)%Z <$> seqZ a (k - a).
Proof.
  revert a. induction m as [|m IH]; intros a Ha Hk Hfail Hok; [lia|].
  rewrite seqZ_cons by lia. cbn [fetch_loop].
  replace (Z.pred (Z.of_nat (S m))) with (Z.of_nat m) by lia.
  destruct (decide (a = k)) as [->|Hne].
  - rewrite Hok. simpl. rewrite Z.sub_diag. by rewrite seqZ_nil.
  - rewrite Hfail by lia.
    destruct (Z.ltb_spec a (max_retries - 1)) as [Hlt|Hge]; [|lia].
    destruct (IH (Z.succ a)) as (Hres & Hreq & Hdel); [lia|lia| |done|].
    { intros attempt Hattempt. apply Hfail. lia. }
    destruct (fetch_loop net url max_retries (seqZ (Z.succ a) (Z.of_nat m)))
      as [r tr]. simpl in *. split_and!; [done| |].
    + rewrite Hreq. replace (Z.to_nat (k - a + 1))
        with (S (Z.to_nat (k - Z.succ a + 1))) by lia. done.
    + rewrite Hdel. rewrite (seqZ_cons a (k - a)) by lia.
      rewrite fmap_cons. do 3 f_equal. lia.
Qed.

(** X8.  When the attempts before attempt [k] fail and attempt [k],
    below the bound, is answered, [fetch_html_with_retry] returns the
    text of that answer after [k + 1] requests and pauses of
    1, 2, ..., 2^(k-1) seconds. *)
Theorem fetch_succeeds_after_failures (net : Z → response) (url : string)
    (max_retries k : Z) (body : string) :
  (0 ≤ k < max_retries)%Z →
  (∀ attempt, (0 ≤ attempt < k)%Z → net attempt = RequestException) →
  net k = Text body →
  (fetch_html_with_retry net url max_retries).1 = Some body ∧
  requests (fetch_html_with_retry net url max_retries).2
    = replicate (Z.to_nat k + 1) url ∧
  delays (fetch_html_with_retry net url max_retries).2
    = (λ j, 2 ^ j)%Z <$> seqZ 0 k.
Proof.
  intros Hk Hfail Hok. unfold fetch_html_with_retry.
  pose proof (fetch_loop_succeeds net url max_retries (Z.to_nat max_retries)
                0 k body) as H.
  rewrite Z2Nat.id in H by lia.
  destruct H as (Hres & Hreq & Hdel); [lia|lia|done|done|].
  split_and!; [done| |].
  - rewrite Hreq. f_equal. lia.
  - rewrite Hdel. by rewrite Z.sub_0_r.
Qed.

Lemma fetch_succeeds_after_failures_witness :
  fetch_html_with_retry
    (λ attempt, if (attempt =? 2)%Z then Text "<html>" else RequestException)
    "https://eksisozluk.com/t--1" MAX_RETRIES
  = (Some "<html>",
     [ Get "https://eksisozluk.com/t--1"; RetryNotice 1 1; Sleep 1;
       Get "https://eksisozluk.com/t--1"; RetryNotice 2 2; Sleep 2;
       Get "https://eksisozluk.com/t--1" ]) ∧
  (fetch_html_with_retry
    (λ attempt, if (attempt =? 2)%Z then Text "<html>" else RequestException)
    "https://eksisozluk.com/t--1" MAX_RETRIES).1 = Some "<html>".
Proof.
  split; [reflexivity|].
  apply (fetch_succeeds_after_failures
           (λ attempt, if (attempt =? 2)%Z then Text "<html>" else RequestException)
           "https://eksisozluk.com/t--1" MAX_RETRIES 2 "<html>").
  - unfold MAX_RETRIES. lia.
  - intros attempt Ha. destruct (Z.eqb_spec attempt 2); [lia|reflexivity].
  - reflexivity.
Defined.

(** ** Scraping all pages *)

Section ScrapeFacts.

Variable page_count_of : string → Z.
Variable entries_of : string → list entry.
Variable net : nat → string → response.

Lemma page_loop_counts urls acc ok ko n :
  ∃ all ok' ko' n',
    foldl (page_step entries_of net) (acc, ok, ko, n) urls = (all, ok', ko', n') ∧
    ok' + ko' = ok + ko + length urls ∧
    (ok ≤ ok')%nat ∧ (ko ≤ ko')%nat ∧
    (ok' = ok → all = acc).
Proof.
  revert acc ok ko n. induction urls as [|u urls IH]; intros acc ok ko n.
  { exists acc, ok, ko, n. simpl. split_and!; auto; lia. }
  cbn [foldl]. unfold page_step at 2.
  destruct (scrape_page entries_of net n u) as [[entries success] n1].
  destruct success.
  - destruct (IH (acc ++ entries) (S ok) ko n1)
      as (all & ok' & ko' & n' & -> & Hsum & Hok & Hko & _).
    exists all, ok', ko', n'. simpl. split_and!; auto; lia.
  - destruct (IH acc ok (S ko) n1)
      as (all & ok' & ko' & n' & -> & Hsum & Hok & Hko & Hacc).
    exists all, ok', ko', n'. simpl. split_and!; auto; lia.
Qed.

(** X9.  In the metadata of [scrape_all_pages] the successful and the
    failed pages add up to the number of page targets; the scrape is
    partial exactly when a page failed; without a successful page there
    are no entries; and when the first fetch fails or returns an empty
    page the result is no entry and counters at zero. *)
Theorem scrape_all_pages_accounting (base_url : string) :
  successful_pages (scrape_all_pages page_count_of entries_of net base_url).2
  + failed_pages (scrape_all_pages page_count_of entries_of net base_url).2
  = length (build_page_urls base_url
      (total_pages (scrape_all_pages page_count_of entries_of net base_url).2)) ∧
  (partial_scrape (scrape_all_pages page_count_of entries_of net base_url).2 = true
   ↔ failed_pages (scrape_all_pages page_count_of entries_of net base_url).2 ≠ 0) ∧
  (successful_pages (scrape_all_pages page_count_of entries_of net base_url).2 = 0 →
   (scrape_all_pages page_count_of entries_of net base_url).1 = []) ∧
  (nonempty (fetch_from net 0 base_url).1 = None →
   scrape_all_pages page_count_of entries_of net base_url
   = ([], Metadata 0 0 0 false)).
Proof.
  unfold scrape_all_pages.
  destruct (fetch_from net 0 base_url) as [html n]. simpl.
  destruct (nonempty html) as [h|]; [|by split_and!].
  destruct (page_loop_counts (build_page_urls base_url (page_count_of h))
              [] 0 0 n) as (all & ok & ko & n' & -> & Hsum & _ & _ & Hnone).
  simpl. split_and!.
  - lia.
  - rewrite bool_decide_eq_true. lia.
  - auto.
  - done.
Qed.

End ScrapeFacts.

Lemma fetch_from_answered net n url body :
  net n url = Text body → fetch_from net n url = (Some body, S n).
Proof.
  intros Hnet. unfold fetch_from, fetch_html_with_retry, MAX_RETRIES.
  rewrite seqZ_cons by lia. cbn [fetch_loop]. simpl Z.to_nat.
  rewrite Nat.add_0_r, Hnet. simpl. f_equal. lia.
Qed.

Lemma page_loop_answered entries_of net page urls acc ok n :
  (∀ n u, net n u = Text (page u)) → (∀ u, page u ≠ EmptyString) →
  foldl (page_step entries_of net) (acc, ok, 0, n) urls
  = (acc ++ (urls ≫= λ u, entries_of (page u)), ok + length urls, 0,
     n + length urls).
Proof.
  intros Hnet Hpage. revert acc ok n.
  induction urls as [|u urls IH]; intros acc ok n.
  { simpl. by rewrite app_nil_r, !Nat.add_0_r. }
  cbn [foldl]. unfold page_step at 2, scrape_page.
  rewrite (fetch_from_answered net n u (page u)) by done.
  unfold nonempty. rewrite bool_decide_eq_false_2 by done.
  rewrite IH. simpl. rewrite <-app_assoc. do 3 f_equal; lia.
Qed.

(** X10.  When every request is answered at once by a non-empty page,
    [scrape_all_pages] returns the entries of all page targets in order,
    with every page successful and the scrape not partial. *)
Theorem scrape_all_pages_complete (page_count_of : string → Z)
    (entries_of : string → list entry) (net : nat → string → response)
    (page : string → string) (base_url : string) :
  (∀ n u, net n u = Text (page u)) →
  (∀ u, page u ≠ EmptyString) →
  scrape_all_pages page_count_of entries_of net base_url
  = (build_page_urls base_url (page_count_of (page base_url))
       ≫= (λ u, entries_of (page u)),
     Metadata (page_count_of (page base_url))
       (length (build_page_urls base_url (page_count_of (page base_url))))
       0 false).
Proof.
  intros Hnet Hpage. unfold scrape_all_pages.
  rewrite (fetch_from_answered net 0 base_url (page base_url)) by done.
  unfold nonempty. rewrite bool_decide_eq_false_2 by done.
  rewrite (page_loop_answered entries_of net page) by done. done.
Qed.

Lemma scrape_all_pages_complete_witness :
  scrape_all_pages (λ _, 2%Z) (λ html, [mk_entry html "a" "t" "c" "s"])
    (λ _ u, Text (String "<" u)) "t--1"
  = ([ mk_entry "<t--1?p=1" "a" "t" "c" "s";
       mk_entry "<t--1?p=2" "a" "t" "c" "s" ],
     Metadata 2 2 0 false).
Proof.
  apply (scrape_all_pages_complete (λ _, 2%Z)
           (λ html, [mk_entry html "a" "t" "c" "s"])
           (λ _ u, Text (String "<" u)) (String "<") "t--1").
  - intros n u. reflexivity.
  - intros u. discriminate.
Defined.

(** ** The pipeline *)







(** X12.  [main] exits with 0, 1 or 2; with 0 only when the scrape was
    complete, the output written and a record accepted; a run that
    accepts no record does not exit with 0 and leaves the disk as it
    was, as does a run without a state file or without a usable command
    line. *)
Theorem main_status_and_disk (env : environment) (disk : fs) :
  ((main env disk).1 = 0%Z ∨ (main env disk).1 = 1%Z ∨
   (main env disk).1 = 2%Z) ∧
  ((main env disk).1 = 0%Z →
   env_partial_scrape env = false ∧ env_write_ok env = true ∧
   (validate_entries (env_scraped env)).1 ≠ []) ∧
  ((validate_entries (env_scraped env)).1 = [] →
   (main env disk).1 ≠ 0%Z ∧ (main env disk).2 = disk) ∧
  (∀ cfg, env_config env = Some cfg → given (state_file cfg) = None →
     (main env disk).2 = disk) ∧
  (env_config env = None → main env disk = (1%Z, disk)).
Proof.
  unfold main. destruct (env_config env) as [cfg|]; [|by split_and!; auto].
  destruct (bool_decide (is_Some (given (lock_file cfg)))
            && negb (env_lock_granted env)) eqn:Hlock.
  { simpl. split_and!; auto; try done. }
  destruct (env_scraped env) as [|e0 scraped] eqn:Hscraped.
  { simpl. split_and!; auto; try done. }
  rewrite <-Hscraped. clear Hscraped.
  destruct (validate_entries (env_scraped env)) as [valid errs] eqn:Hvalid.
  simpl. destruct valid as [|v valid].
  { simpl. split_and!; auto; try done. }
  destruct (given (state_file cfg)) as [sf|] eqn:Hsf.
  - destruct (load_state disk sf) as [previous_state log'].
    destruct (bool_decide (previous_state = ∅)).
    + destruct (save_state_atomic (v :: valid) sf (env_pid env) disk)
        as [[disk' ok] log].
      destruct ok, (env_write_ok env), (env_partial_scrape env); simpl;
        split_and!; auto; try done; intros; simplify_eq.
    + destruct (compute_diff (v :: valid) previous_state).
      * destruct (save_state_atomic (v :: valid) sf (env_pid env) disk)
          as [[disk' ok] log].
        destruct ok, (env_write_ok env), (env_partial_scrape env); simpl;
          split_and!; auto; try done; intros; simplify_eq.
      * simpl. split_and!; auto; try done; intros; simplify_eq.
  - destruct (env_write_ok env), (env_partial_scrape env); simpl;
      split_and!; auto; try done; intros; simplify_eq.
Qed.

(** ** The content-aware diff on whole lists *)

Lemma previous_record_Some old_data i e :
  previous_record old_data i = Some e → e ∈ old_data ∧ DataManager.id e = i.
Proof.
  unfold previous_record. intros Hlast.
  assert (e ∈ filter (λ e, DataManager.id e = i) old_data) as Hin.
  { apply last_Some in Hlast as [l' ->]. set_solver. }
  by apply list_elem_of_filter in Hin as [? ?].
Qed.

Lemma previous_record_None old_data i :
  previous_record old_data i = None ↔ i ∉ DataManager.id <$> old_data.
Proof.
  unfold previous_record. rewrite last_None, list_elem_of_fmap. split.
  - intros Hnil (e & -> & He).
    assert (e ∈ filter (λ e', DataManager.id e' = DataManager.id e) old_data)
      as Hin by by apply list_elem_of_filter.
    rewrite Hnil in Hin. by apply elem_of_nil in Hin.
  - intros Hnot. apply elem_of_nil_inv.
    intros e [Hid He]%list_elem_of_filter. apply Hnot. eauto.
Qed.

Lemma previous_record_unique old_data e :
  NoDup (DataManager.id <$> old_data) → e ∈ old_data →
  previous_record old_data (DataManager.id e) = Some e.
Proof.
  intros Hnd He.
  destruct (previous_record old_data (DataManager.id e)) as [e'|] eqn:Hrec.
  - apply previous_record_Some in Hrec as [He' Hid]. f_equal.
    apply list_elem_of_lookup in He as [k Hk].
    apply list_elem_of_lookup in He' as [k' Hk'].
    assert (k' = k) as ->; [|congruence].
    eapply NoDup_lookup; [exact Hnd| |].
    + by rewrite list_lookup_fmap, Hk'.
    + by rewrite list_lookup_fmap, Hk, Hid.
  - apply previous_record_None in Hrec. destruct Hrec.
    apply list_elem_of_fmap. eauto.
Qed.

(** X13.  The diff of a list of records with distinct ids against
    itself is empty. *)
Theorem diff_of_same_data (data : list DataManager.Entry) :
  NoDup (DataManager.id <$> data) →
  DataManager.diff data data = [].
Proof.
  intros Hnd. rewrite diff_contributions.
  apply elem_of_nil_inv. intros d (e & Hd & He)%list_elem_of_bind.
  pose proof (contribution_cases data e) as Hc.
  rewrite (previous_record_unique data e Hnd He) in Hc. cbv zeta in Hc.
  rewrite decide_True in Hc by done. rewrite Hc in Hd.
  by apply elem_of_nil in Hd.
Qed.

Lemma diff_of_same_data_witness :
  DataManager.diff [storm_old; storm_rewritten] [storm_old; storm_rewritten]
    = [DataManager.DiffEntry "1" "edited" "a storm hit" "12:00"] ∧
  DataManager.diff [storm_old] [storm_old] = [].
Proof.
  split; [reflexivity|].
  apply (diff_of_same_data [storm_old]).
  repeat constructor. set_solver.
Defined.

Lemma contribution_short old_data entry :
  contribution old_data entry = [] ∨
  ∃ d, contribution old_data entry = [d] ∧
       DataManager.d_id d = DataManager.id entry ∧
       DataManager.d_timestamp d = DataManager.timestamp entry ∧
       (DataManager.type_ d = "new" ↔
        DataManager.id entry ∉ DataManager.id <$> old_data).
Proof.
  pose proof (contribution_cases old_data entry) as Hc.
  destruct (previous_record old_data (DataManager.id entry)) as [old_entry|]
    eqn:Hprev.
  - assert (¬ (DataManager.id entry ∉ DataManager.id <$> old_data)) as Hin.
    { intros Hnot. apply previous_record_None in Hnot. congruence. }
    cbv zeta in Hc. rewrite Hc.
    repeat case_decide; auto; destruct (startswith _ _); auto;
      right; eexists; (split; [done|]); simpl; split_and!; try done;
      split; try done; intros; tauto.
  - apply previous_record_None in Hprev. right. eexists. split; [done|].
    simpl. split_and!; try done.
Qed.

(** X14.  The entries of a diff follow the order of [new_data], at most
    one for each record; an entry has the type new exactly when its id
    does not occur in [old_data]; when no id of [new_data] occurs in
    [old_data], or [old_data] is empty, every record is reported as new;
    an empty [new_data] gives an empty diff. *)
Theorem diff_follows_new_data (old_data new_data : list DataManager.Entry) :
  DataManager.d_id <$> DataManager.diff old_data new_data
    `sublist_of` DataManager.id <$> new_data ∧
  (length (DataManager.diff old_data new_data) ≤ length new_data)%nat ∧
  (∀ d, d ∈ DataManager.diff old_data new_data →
     (DataManager.type_ d = "new" ↔
      DataManager.d_id d ∉ DataManager.id <$> old_data)) ∧
  ((∀ entry, entry ∈ new_data →
      DataManager.id entry ∉ DataManager.id <$> old_data) →
   DataManager.diff old_data new_data = new_entry <$> new_data) ∧
  DataManager.diff old_data [] = [] ∧
  DataManager.diff [] new_data = new_entry <$> new_data.
Proof.
  assert (Hfresh : ∀ l : list DataManager.Entry,
    (∀ entry, entry ∈ l → DataManager.id entry ∉ DataManager.id <$> old_data) →
    l ≫= contribution old_data = new_entry <$> l).
  { intros l Hl. induction l as [|e l IH]; [done|].
    rewrite bind_cons, fmap_cons, IH by set_solver.
    pose proof (contribution_cases old_data e) as Hc.
    assert (previous_record old_data (DataManager.id e) = None) as Hnone.
    { apply previous_record_None, Hl. set_solver. }
    rewrite Hnone in Hc. by rewrite Hc. }
  rewrite !diff_contributions. split_and!.
  - induction new_data as [|e l IH]; [done|].
    rewrite bind_cons, fmap_app, fmap_cons.
    destruct (contribution_short old_data e) as [->|(d & -> & Hid & _)]; simpl.
    + by apply sublist_cons.
    + rewrite Hid. by apply sublist_skip.
  - induction new_data as [|e l IH]; [done|].
    rewrite bind_cons, length_app. simpl.
    destruct (contribution_short old_data e) as [->|(d & -> & _)]; simpl; lia.
  - intros d (e & Hd & He)%list_elem_of_bind.
    destruct (contribution_short old_data e) as [Hc|(d' & Hc & Hid & _ & Hty)];
      rewrite Hc in Hd.
    + by apply elem_of_nil in Hd.
    + apply list_elem_of_singleton in Hd as ->. by rewrite Hid.
  - apply Hfresh.
  - done.
  - assert (∀ l : list DataManager.Entry,
              l ≫= contribution [] = new_entry <$> l) as Hnil.
    { induction l as [|e l IH]; [done|]. by rewrite bind_cons, fmap_cons, IH. }
    apply Hnil.
Qed.

Lemma diff_follows_new_data_witness :
  DataManager.diff [storm_old] [storm_other; storm_other]
  = [new_entry storm_other; new_entry storm_other].
Proof.
  destruct (diff_follows_new_data [storm_old] [storm_other; storm_other])
    as (_ & _ & _ & Hfresh & _).
  apply Hfresh. intros entry Hentry.
  assert (entry = storm_other) as -> by set_solver.
  vm_compute. set_solver.
Defined.

(** ** The diff outside validated batches *)

Lemma index_by_id_missing current e :
  e ∈ current → str_id e = None → index_by_id current = None.
Proof.
  intros [l1 [l2 ->]]%list_elem_of_split Hid. unfold index_by_id.
  rewrite foldl_app. cbn [foldl].
  assert (index_step (foldl index_step (Some ∅) l1) e = None) as ->.
  { destruct (foldl index_step (Some ∅) l1) as [m|]; unfold index_step; simpl;
      [by rewrite Hid|done]. }
  induction l2 as [|x l2 IH]; [done|]. exact IH.
Qed.

(** X15.  [compute_diff] raises when a record of the batch has no
    id. *)
Theorem compute_diff_missing_id (current : list entry) (previous : state)
    (e : entry) :
  e ∈ current → e !! "id" = None →
  compute_diff current previous = None.
Proof.
  intros He Hid. unfold compute_diff.
  rewrite (index_by_id_missing current e He); [done|].
  unfold str_id. by rewrite Hid.
Qed.

Lemma compute_diff_missing_id_witness :
  compute_diff [record_1; delete "id" record_1] state_1 = None.
Proof.
  apply (compute_diff_missing_id _ _ (delete "id" record_1)).
  - set_solver.
  - reflexivity.
Defined.

(** X16.  When every record of the batch has a string id and none of
    these ids is in the previous state, [compute_diff] reads no other
    field: it returns the record of every id of the batch as new, every
    record of the state as deleted and nothing as edited. *)
Theorem compute_diff_disjoint (current : list entry) (previous : state) :
  Forall (λ e, is_Some (str_id e)) current →
  dom previous ## batch_ids current →
  ∃ d, compute_diff current previous = Some d ∧
       diff_edited d = [] ∧
       Forall2 (λ i e, current_record current i = Some e)
         (elements (batch_ids current)) (diff_new d) ∧
       Forall2 (λ i e, previous !! i = Some e)
         (elements (dom previous)) (diff_deleted d) ∧
       diff_summary d =
         Summary (size (batch_ids current)) 0 (size previous)
           (length current) (size previous).
Proof.
  intros Hids Hdisj.
  destruct (index_by_id_Some current Hids) as (m & Hm & Hlook).
  assert (Hdom : dom m = batch_ids current).
  { apply set_eq. intros i. rewrite elem_of_dom, Hlook, current_record_is_Some.
    unfold batch_ids. by rewrite elem_of_list_to_set. }
  assert (Hnew_ids : dom m ∖ dom previous = batch_ids current) by set_solver.
  assert (Hdel_ids : dom previous ∖ dom m = dom previous) by set_solver.
  assert (Hcommon : dom m ∩ dom previous = ∅) by set_solver.
  destruct (mapM_is_Some_2 (λ eid, m !! eid) (elements (batch_ids current)))
    as [news Hnews].
  { apply Forall_forall. intros i Hi%elem_of_elements. simpl.
    apply elem_of_dom. by rewrite Hdom. }
  destruct (mapM_is_Some_2 (λ eid, previous !! eid) (elements (dom previous)))
    as [dels Hdels].
  { apply Forall_forall. intros i Hi%elem_of_elements. simpl.
    by apply elem_of_dom. }
  exists (DiffResult news [] dels
            (Summary (length news) 0 (length dels) (length current)
               (size previous))).
  split.
  { unfold compute_diff. rewrite Hm. simpl.
    rewrite Hnew_ids, Hdel_ids, Hcommon, elements_empty, Hnews. simpl.
    by rewrite Hdels. }
  apply mapM_Some in Hnews. apply mapM_Some in Hdels. simpl.
  split_and!; [done| |done|].
  - eapply Forall2_impl; [exact Hnews|]. intros i e Hie. by rewrite <-Hlook.
  - rewrite <-(Forall2_length _ _ _ Hnews), <-(Forall2_length _ _ _ Hdels).
    by rewrite <-size_dom.
Qed.

Lemma compute_diff_disjoint_witness :
  ∃ d, compute_diff [stub_1] ∅ = Some d ∧ diff_new d = [stub_1] ∧
       diff_edited d = [].
Proof.
  destruct (compute_diff_disjoint [stub_1] ∅) as (d & Hd & Hed & Hnew & _).
  - repeat constructor. vm_compute. eauto.
  - set_solver.
  - exists d. split; [exact Hd|]. split; [|exact Hed].
    vm_compute in Hd. injection Hd as <-. reflexivity.
Defined.
